(** * HL7 middleware: the message codec of [main.go]

    A shallow embedding of the HL7 v2 codec ([HL7Message], [AddSegment],
    [GenerateMessage], [ParseHL7Message]) together with the parts of the Go
    standard library the codec runs on ([strings.Index], [strings.Split],
    [strings.Builder], [strings.Reader] and [bufio.Scanner]).  The HTTP
    handlers and the client functions only call the codec and are left out.

    Go strings and byte slices are finite sequences of bytes; both are
    modelled as [list ascii].  A nil slice and an empty slice are the same
    list [[]].  Methods with a pointer receiver take the value and return the
    new one. *)

From Stdlib Require Import String Ascii List Arith ZArith Lia Bool.
Import ListNotations.

(** ** Go strings *)

Definition gostring : Type := list ascii.

(** A Go string literal. *)
Definition str (s : string) : gostring := list_ascii_of_string s.

(** The carriage return, ["\r"] in Go, and the line feed, ["\n"]. *)
Definition CR : ascii := ascii_of_nat 13.
Definition LF : ascii := ascii_of_nat 10.

(** ** Outcomes of a run

    [Done a] is a normal return.  [Panic] is a Go run-time panic.
    [OutOfFuel] marks a loop of the model that was cut off before the Go loop
    would have ended. *)

Inductive run (A : Type) : Type :=
| Done (a : A)
| Panic
| OutOfFuel.

Arguments Done {A} a.
Arguments Panic {A}.
Arguments OutOfFuel {A}.

(** Go [error] values that the codec can meet. *)
Inductive error : Type :=
| EOF                          (* io.EOF *)
| ErrNoProgress                (* io.ErrNoProgress *)
| ErrTooLong                   (* bufio.ErrTooLong *)
| ErrAdvanceTooFar             (* bufio.ErrAdvanceTooFar *)
| errors_New (text : string).  (* errors.New(text) *)

(** ** Package [strings] *)

Module strings.

Fixpoint HasPrefix (s prefix : gostring) {struct prefix} : bool :=
  match prefix, s with
  | [], _ => true
  | _ :: _, [] => false
  | p :: prefix', c :: s' => Ascii.eqb c p && HasPrefix s' prefix'
  end.

(** [Index s substr] is the index of the first instance of [substr] in [s];
    [None] stands for Go's [-1]. *)
Fixpoint Index (s substr : gostring) : option nat :=
  if HasPrefix s substr then Some 0
  else match s with
       | [] => None
       | _ :: s' => option_map S (Index s' substr)
       end.

(** The loop of [genSplit]: at most [n] cuts, each at the next instance of
    [sep]; what is left is the last element. *)
Fixpoint genSplit (n : nat) (s sep : gostring) : list gostring :=
  match n with
  | 0 => [s]
  | S n' =>
      match Index s sep with
      | None => [s]
      | Some m => firstn m s :: genSplit n' (skipn (m + length sep) s) sep
      end
  end.

(** [Split s sep] for a non-empty [sep].  Go sizes the result as
    [Count(s, sep) + 1], capped at [len(s) + 1], and leaves the loop as soon
    as [Index] finds nothing. *)
Definition Split (s sep : gostring) : list gostring :=
  genSplit (length s) s sep.

(** [strings.Builder]: the bytes written so far. *)
Definition Builder := gostring.
Definition NewBuilder : Builder := [].
Definition WriteString (b : Builder) (s : gostring) : Builder := b ++ s.
Definition String (b : Builder) : gostring := b.

(** [strings.Reader]: the part of the string not read yet. *)
Definition Reader := gostring.
Definition NewReader (s : gostring) : Reader := s.

(** [Read] into a slice of [n] bytes: the bytes copied, the reader
    afterwards, and the error. *)
Definition Read (r : Reader) (n : nat) : gostring * Reader * option error :=
  match r with
  | [] => ([], r, Some EOF)
  | _ :: _ => (firstn n r, skipn n r, None)
  end.

End strings.

(** ** Package [bufio]: the Scanner *)

Module bufio.

Definition MaxScanTokenSize : nat := 64 * 1024.
Definition startBufSize : nat := 4096.
Definition maxConsecutiveEmptyReads : nat := 100.
Definition maxInt : Z := 2 ^ 63 - 1.

(** A split function returns how far to advance and the token, if any.
    The split function of this program returns a nil error everywhere, so
    the error result is left out. *)
Definition SplitFunc := gostring -> bool -> nat * option gostring.

(** The Scanner.  The buffer [s.buf] is kept as its length [buf_len], the
    offset [start] and the bytes [data] of [s.buf[s.start:s.end]], so that
    [s.end] is [start + length data]. *)
Record Scanner : Type := mkScanner {
  r : strings.Reader;
  split : SplitFunc;
  maxTokenSize : nat;
  token : option gostring;
  buf_len : nat;
  start : nat;
  data : gostring;
  err : option error;
  empties : nat
}.

Definition end_ (s : Scanner) : nat := start s + length (data s).

(** Field updates. *)
Definition set_split (f : SplitFunc) (s : Scanner) : Scanner :=
  mkScanner (r s) f (maxTokenSize s) (token s) (buf_len s) (start s)
            (data s) (err s) (empties s).
Definition set_token (t : option gostring) (s : Scanner) : Scanner :=
  mkScanner (r s) (split s) (maxTokenSize s) t (buf_len s) (start s)
            (data s) (err s) (empties s).
Definition set_err (e : option error) (s : Scanner) : Scanner :=
  mkScanner (r s) (split s) (maxTokenSize s) (token s) (buf_len s) (start s)
            (data s) e (empties s).
Definition set_empties (n : nat) (s : Scanner) : Scanner :=
  mkScanner (r s) (split s) (maxTokenSize s) (token s) (buf_len s) (start s)
            (data s) (err s) n.
(** The window [s.buf[s.start:s.end]] moves to offset [st], holding [d]. *)
Definition set_window (st : nat) (d : gostring) (s : Scanner) : Scanner :=
  mkScanner (r s) (split s) (maxTokenSize s) (token s) (buf_len s) st
            d (err s) (empties s).
Definition set_buf_len (n : nat) (s : Scanner) : Scanner :=
  mkScanner (r s) (split s) (maxTokenSize s) (token s) n (start s)
            (data s) (err s) (empties s).
Definition set_r (rd : strings.Reader) (s : Scanner) : Scanner :=
  mkScanner rd (split s) (maxTokenSize s) (token s) (buf_len s) (start s)
            (data s) (err s) (empties s).

(** [dropCR] drops a terminal carriage return from the data. *)
Definition dropCR (data : gostring) : gostring :=
  if (0 <? length data) && Ascii.eqb (last data LF) CR
  then firstn (length data - 1) data
  else data.

(** [ScanLines], the split function of a new Scanner. *)
Definition ScanLines : SplitFunc :=
  fun (data : gostring) (atEOF : bool) =>
    if atEOF && (length data =? 0) then (0, None)
    else
      match strings.Index data [LF] with
      | Some i => (i + 1, Some (dropCR (firstn i data)))
      | None => if atEOF then (length data, Some (dropCR data)) else (0, None)
      end.

Definition NewScanner (rd : strings.Reader) : Scanner :=
  {| r := rd;
     split := ScanLines;
     maxTokenSize := MaxScanTokenSize;
     token := None;
     buf_len := 0;
     start := 0;
     data := [];
     err := None;
     empties := 0 |}.

(** [scanner.Split(f)] sets the split function.  Go panics when it is called
    after scanning has started; the program calls it before the first
    [Scan]. *)
Definition Split (s : Scanner) (f : SplitFunc) : Scanner := set_split f s.

(** [setErr] records the first error met; [io.EOF] can be replaced. *)
Definition setErr (s : Scanner) (e : error) : Scanner :=
  match err s with
  | None | Some EOF => set_err (Some e) s
  | Some _ => s
  end.

(** [Err] hides [io.EOF]. *)
Definition Err (s : Scanner) : option error :=
  match err s with
  | Some EOF => None
  | e => e
  end.

Definition Text (s : Scanner) : gostring :=
  match token s with
  | Some t => t
  | None => []
  end.

(** [s.err != nil] *)
Definition failed (s : Scanner) : bool :=
  match err s with
  | Some _ => true
  | None => false
  end.

(** One round of the loop of [Scan] either leaves [Scan] or goes on. *)
Inductive step : Type :=
| Return (o : run (bool * Scanner))
| Continue (s : Scanner).

(** First half of a round: see if a token can be cut from what the buffer
    holds.  At the end of the input the split function gets a last chance,
    also on an empty window. *)
Definition tryToken (s : Scanner) : step :=
  if (0 <? length (data s)) || failed s then
    let '(advance, tok) := split s (data s) (failed s) in
    (* s.advance(advance) *)
    if length (data s) <? advance then
      Return (Done (false, setErr s ErrAdvanceTooFar))
    else
      let s1 :=
        set_token tok
          (set_window (start s + advance) (skipn advance (data s)) s) in
      match tok with
      | Some _ =>
          if negb (failed s1) || (0 <? advance) then
            Return (Done (true, set_empties 0 s1))
          else
            (* a token that does not advance the input at EOF *)
            if maxConsecutiveEmptyReads <? S (empties s1) then Return Panic
            else Return (Done (true, set_empties (S (empties s1)) s1))
      | None => Continue s1
      end
  else Continue s.

(** The read at the end of a round, into [s.buf[s.end:len(s.buf)]].  A
    [strings.Reader] never returns a bad count, and it gives the same answer
    to the same call, so the hundred empty reads that Go allows before
    [io.ErrNoProgress] are one empty read here. *)
Definition readMore (s : Scanner) : Scanner :=
  let '(bytes, r', e) := strings.Read (r s) (buf_len s - end_ s) in
  let s1 := set_r r' (set_window (start s) (data s ++ bytes) s) in
  match e, bytes with
  | Some e, _ => setErr s1 e
  | None, _ :: _ => set_empties 0 s1
  | None, [] => setErr s1 ErrNoProgress
  end.

(** Shift the data to the beginning of the buffer if there is lots of
    empty space or space is needed. *)
Definition shift (s : Scanner) : Scanner :=
  if (0 <? start s) && ((end_ s =? buf_len s) || (buf_len s / 2 <? start s))
  then set_window 0 (data s) s
  else s.

(** Second half of a round: stop on an error, else make room in the buffer
    and read once more. *)
Definition fill (s : Scanner) : step :=
  if failed s then Return (Done (false, set_window 0 [] s))
  else
    let s1 := shift s in
    if end_ s1 =? buf_len s1 then
      (* the buffer is full: resize, or give up *)
      if (maxTokenSize s1 <=? buf_len s1)
         || (maxInt / 2 <? Z.of_nat (buf_len s1))%Z then
        Return (Done (false, setErr s1 ErrTooLong))
      else
        let newSize := buf_len s1 * 2 in
        let newSize := if newSize =? 0 then startBufSize else newSize in
        let newSize := Nat.min newSize (maxTokenSize s1) in
        Continue (readMore (set_buf_len newSize (set_window 0 (data s1) s1)))
    else Continue (readMore s1).

Fixpoint Scan_loop (fuel : nat) (s : Scanner) : run (bool * Scanner) :=
  match fuel with
  | 0 => OutOfFuel
  | S fuel' =>
      match tryToken s with
      | Return o => o
      | Continue s1 =>
          match fill s1 with
          | Return o => o
          | Continue s2 => Scan_loop fuel' s2
          end
      end
  end.

(** [Scan]: every round that goes on has read at least one byte, or has
    set an error that ends the next round. *)
Definition Scan (s : Scanner) : run (bool * Scanner) :=
  Scan_loop (length (r s) + 2) s.

End bufio.

(** ** The codec of [main.go] *)

(** Constants for HL7 message structure. *)
Definition SegmentSeparator : gostring := [CR].
Definition FieldSeparator : gostring := str "|".
Definition ComponentSeparator : gostring := str "^".
Definition SubComponentSeparator : gostring := str "&".
Definition RepetitionSeparator : gostring := str "~".
Definition EscapeCharacter : gostring := str "\".

(** [Segment] represents an HL7 segment.  The field [Type] of the source is
    [Type_] here, [Type] being a keyword. *)
Record Segment : Type := mkSegment {
  Type_ : gostring;
  Fields : list gostring
}.

(** [HL7Message] represents a complete HL7 message. *)
Record HL7Message : Type := mkHL7Message {
  Segments : list Segment
}.

Definition NewHL7Message : HL7Message := {| Segments := [] |}.

(** [AddSegment] adds a new segment to the message.  The variadic [fields]
    are a list. *)
Definition AddSegment (m : HL7Message) (segmentType : gostring)
                      (fields : list gostring) : HL7Message :=
  let segment := {| Type_ := segmentType; Fields := fields |} in
  {| Segments := Segments m ++ [segment] |}.

(** [GenerateMessage] converts the message to a string: the two nested
    [range] loops thread the builder. *)
Definition GenerateMessage (m : HL7Message) : gostring :=
  let messageBuilder :=
    fold_left
      (fun (b : strings.Builder) (segment : Segment) =>
         let b := strings.WriteString b (Type_ segment) in
         let b :=
           fold_left
             (fun (b : strings.Builder) (field : gostring) =>
                let b := strings.WriteString b FieldSeparator in
                strings.WriteString b field)
             (Fields segment) b in
         strings.WriteString b SegmentSeparator)
      (Segments m) strings.NewBuilder in
  strings.String messageBuilder.

(** The split function that [ParseHL7Message] gives to the scanner. *)
Definition splitSegments : bufio.SplitFunc :=
  fun (data : gostring) (atEOF : bool) =>
    if atEOF && (length data =? 0) then (0, None)
    else
      match strings.Index data SegmentSeparator with
      | Some i => (i + 1, Some (firstn i data))
      | None => if atEOF then (length data, Some data) else (0, None)
      end.

(** What [ParseHL7Message] returns: a message and a nil error, or nil and an
    error. *)
Inductive result : Type :=
| Ok (message : HL7Message)
| Err (e : error).

(** The loop [for scanner.Scan() { ... }] and what follows it. *)
Fixpoint scanSegments (fuel : nat) (scanner : bufio.Scanner)
                      (message : HL7Message) : run result :=
  match fuel with
  | 0 => OutOfFuel
  | S fuel' =>
      match bufio.Scan scanner with
      | OutOfFuel => OutOfFuel
      | Panic => Panic
      | Done (true, scanner) =>
          let segmentStr := bufio.Text scanner in
          if length segmentStr =? 0 then scanSegments fuel' scanner message
          else
            let fields := strings.Split segmentStr FieldSeparator in
            if length fields <? 1 then
              Done (Err (errors_New "invalid segment format"))
            else
              let segment := {| Type_ := nth 0 fields [];
                                Fields := skipn 1 fields |} in
              scanSegments fuel' scanner
                {| Segments := Segments message ++ [segment] |}
      | Done (false, scanner) =>
          match bufio.Err scanner with
          | Some err => Done (Err err)
          | None => Done (Ok message)
          end
      end
  end.

(** [ParseHL7Message] parses an HL7 message string.  Every token the scanner
    returns takes at least one byte of the input, so the loop runs at most
    [len(messageStr)] times before the scan that ends it. *)
Definition ParseHL7Message (messageStr : gostring) : run result :=
  let message := NewHL7Message in
  let scanner := bufio.NewScanner (strings.NewReader messageStr) in
  let scanner := bufio.Split scanner splitSegments in
  scanSegments (length messageStr + 1) scanner message.

(** ** The text seen as pieces

    The functions of this part are not in the source: they say, by structural
    recursion on the text, what the library functions compute at a one-byte
    separator.  The lemmas after them connect the two. *)

(** [break c s] cuts [s] at its first byte [c]: what is before it and, if
    there is one, what is after it. *)
Fixpoint break (c : ascii) (s : gostring) : gostring * option gostring :=
  match s with
  | [] => ([], None)
  | d :: s' =>
      if Ascii.eqb d c then ([], Some s')
      else let (h, t) := break c s' in (d :: h, t)
  end.

(** [splitOn c s]: the pieces of [s] between the bytes [c]; always at least
    one piece. *)
Fixpoint splitOn (c : ascii) (s : gostring) : list gostring :=
  match s with
  | [] => [[]]
  | d :: s' =>
      if Ascii.eqb d c then [] :: splitOn c s'
      else match splitOn c s' with
           | h :: t => (d :: h) :: t
           | [] => [[d]]
           end
  end.

(** [chunks s]: the pieces of [s] that end at a carriage return, and what
    follows the last carriage return when that is not empty. *)
Fixpoint chunks (s : gostring) : list gostring :=
  match s with
  | [] => []
  | d :: s' =>
      if Ascii.eqb d CR then [] :: chunks s'
      else match chunks s' with
           | h :: t => (d :: h) :: t
           | [] => [[d]]
           end
  end.

(** The segment that [ParseHL7Message] makes of a non-empty chunk. *)
Definition toSegment (chunk : gostring) : Segment :=
  let fields := splitOn "|"%char chunk in
  {| Type_ := nth 0 fields []; Fields := skipn 1 fields |}.

(** The loop of [ParseHL7Message] over the chunks of the text. *)
Fixpoint parseChunks (cs : list gostring) (message : HL7Message) : result :=
  match cs with
  | [] => Ok message
  | c :: cs' =>
      if length c <? bufio.MaxScanTokenSize then
        if length c =? 0 then parseChunks cs' message
        else parseChunks cs' {| Segments := Segments message ++ [toSegment c] |}
      else Err ErrTooLong
  end.

(** The text of one segment, without the carriage return that ends it. *)
Definition segmentLine (segment : Segment) : gostring :=
  Type_ segment ++ concat (map (fun field => FieldSeparator ++ field) (Fields segment)).

(** Serialization in the words of the specification: per segment its type,
    then the field separator and the field for each field, then the segment
    separator. *)
Definition serialize (m : HL7Message) : gostring :=
  concat (map (fun segment => segmentLine segment ++ SegmentSeparator) (Segments m)).

Arguments bufio.MaxScanTokenSize : simpl never.

(** ** The scanner between two calls of [Scan] *)

(** The text the scanner has not yet given out: the window of the buffer and
    what the reader still holds. *)
Definition rest (s : bufio.Scanner) : gostring := bufio.data s ++ bufio.r s.

(** The scanner of [ParseHL7Message] between two calls of [Scan]: the
    window lies in the buffer, the buffer is no larger than the largest
    token, and the end of the input is only seen by a read into a buffer
    with room left. *)
Record inv (s : bufio.Scanner) : Prop := mkInv {
  inv_split : bufio.split s = splitSegments;
  inv_max : bufio.maxTokenSize s = bufio.MaxScanTokenSize;
  inv_end : bufio.end_ s <= bufio.buf_len s;
  inv_buf : bufio.buf_len s <= bufio.MaxScanTokenSize;
  inv_err : bufio.err s = None \/
            (bufio.err s = Some EOF /\ bufio.r s = [] /\
             bufio.end_ s < bufio.buf_len s)
}.

(** What a call of [Scan] must return when [text] is still to be scanned. *)
Definition ScanPost (text : gostring) (o : run (bool * bufio.Scanner)) : Prop :=
  match text with
  | [] => exists s', o = Done (false, s') /\ bufio.Err s' = None
  | _ :: _ =>
      let (h, t) := break CR text in
      if length h <? bufio.MaxScanTokenSize then
        exists s', o = Done (true, s') /\ bufio.Text s' = h /\ inv s' /\
                   rest s' = match t with Some t => t | None => [] end
      else
        exists s', o = Done (false, s') /\ bufio.Err s' = Some ErrTooLong
  end.

(** Reduce the projections of a scanner that is written out. *)
Ltac fields :=
  cbn [bufio.r bufio.split bufio.maxTokenSize bufio.token bufio.buf_len
       bufio.start bufio.data bufio.err bufio.empties] in *.

Ltac open_scanner s :=
  destruct s as [rd sp mx tk bl st d e em];
  unfold rest, bufio.end_ in *; fields.

(** ** Messages that survive the round trip *)

Definition nonEmpty (c : gostring) : bool := negb (length c =? 0).

Definition hasByte (c : ascii) (s : gostring) : bool := existsb (Ascii.eqb c) s.

(** A type or field with no segment separator and no field separator in it. *)
Definition plain (s : gostring) : bool :=
  negb (hasByte CR s) && negb (hasByte "|"%char s).

Definition plainSegment (segment : Segment) : bool :=
  plain (Type_ segment) && forallb plain (Fields segment).

Definition plainMessage (m : HL7Message) : bool :=
  forallb plainSegment (Segments m).

(** A segment with a non-empty type or at least one field. *)
Definition hasContent (segment : Segment) : bool :=
  match Type_ segment, Fields segment with
  | [], [] => false
  | _, _ => true
  end.

(** A segment whose line fits a token of the scanner. *)
Definition shortLine (segment : Segment) : bool :=
  length (segmentLine segment) <? bufio.MaxScanTokenSize.

(** A chunk that the parser turns into a segment. *)
Definition segmentChunk (chunk : gostring) : bool :=
  nonEmpty chunk && (length chunk <? bufio.MaxScanTokenSize).

(** A message with one segment that has neither a type nor a field. *)
Definition bareSegmentMessage : HL7Message :=
  AddSegment NewHL7Message [] [].

(** The message of the end-to-end scenario. *)
Definition scenarioMessage : HL7Message :=
  AddSegment
    (AddSegment NewHL7Message (str "MSH") [str "^~\&"; str "APP"; str "FAC"])
    (str "PID") [str ""; str "123"; str ""; str ""; str "Doe^John"].

(** ** The rest of [main.go]: the sample message and the HTTP handlers *)

(** Messages built by a sequence of [AddSegment] calls, each call given as
    its segment type and its fields. *)
Definition addSegments (m : HL7Message)
                       (calls : list (gostring * list gostring)) : HL7Message :=
  fold_left (fun m call => AddSegment m (fst call) (snd call)) calls m.

(** The number of fields of a message, over all its segments. *)
Definition fieldCount (m : HL7Message) : nat :=
  list_sum (map (fun segment => length (Fields segment)) (Segments m)).

(** A text made of lines that each are non-empty, shorter than the largest
    token and ended by a carriage return, with nothing after the last one;
    [lineLen] is the length of the line that is open. *)
Fixpoint canonical (lineLen : nat) (s : gostring) : bool :=
  match s with
  | [] => lineLen =? 0
  | d :: s' =>
      if Ascii.eqb d CR then
        (0 <? lineLen) && (lineLen <? bufio.MaxScanTokenSize) && canonical 0 s'
      else canonical (S lineLen) s'
  end.

Definition isDigit (c : ascii) : bool :=
  (48 <=? nat_of_ascii c) && (nat_of_ascii c <=? 57).

(** [GenerateSampleMessage]; [currentTime] is the string that
    [time.Now().Format("20060102150405")] returned. *)
Definition GenerateSampleMessage (currentTime : gostring) : HL7Message :=
  let message := NewHL7Message in
  let message :=
    AddSegment message (str "MSH")
      [str "^~\&"; str "SENDING_APP"; str "SENDING_FACILITY";
       str "RECEIVING_APP"; str "RECEIVING_FACILITY"; currentTime; str "";
       str "ADT^A01"; str "MSG00001"; str "P"; str "2.5"] in
  let message :=
    AddSegment message (str "PID")
      [str ""; str "12345"; str ""; str ""; str "Doe^John"; str "";
       str "19800101"; str "M"] in
  message.

(** The text of a Go error, [err.Error()]. *)
Definition Error (e : error) : string :=
  match e with
  | EOF => "EOF"
  | ErrNoProgress => "multiple Read calls return no data or error"
  | ErrTooLong => "bufio.Scanner: token too long"
  | ErrAdvanceTooFar =>
      "bufio.Scanner: SplitFunc returns advance count beyond input"
  | errors_New text => text
  end.

Fixpoint gostring_eqb (a b : gostring) : bool :=
  match a, b with
  | [], [] => true
  | x :: a', y :: b' => Ascii.eqb x y && gostring_eqb a' b'
  | _, _ => false
  end.

(** [HTTPResponse] represents the standard API response; a nil [Data] is
    [None]. *)
Record HTTPResponse : Type := mkHTTPResponse {
  Success : bool;
  Message : string;
  Data : option HL7Message
}.

(** What a handler gives to [json.NewEncoder(w).Encode]: the JSON text is not
    modelled, the value that is encoded stands for it. *)
Inductive payload : Type :=
| jsonResponse (response : HTTPResponse)
| jsonVersion (version buildDate : string).

(** ** Package [net/http], as far as the handlers use it *)

Module http.

Definition MethodGet : gostring := str "GET".
Definition MethodPost : gostring := str "POST".
Definition StatusOK : nat := 200.
Definition StatusBadRequest : nat := 400.
Definition StatusMethodNotAllowed : nat := 405.

(** A request: its method, and its body as [io.ReadAll] finds it, the bytes
    read and the error that ended the reading, if any. *)
Record Request : Type := mkRequest {
  Method : gostring;
  Body : gostring * option error
}.

(** A response writer: the header map, the status and header sent by the
    first [WriteHeader], and the values written to the body. *)
Record ResponseWriter : Type := mkResponseWriter {
  Header : list (string * string);
  sent : option (nat * list (string * string));
  written : list payload
}.

Definition NewResponseWriter : ResponseWriter :=
  {| Header := []; sent := None; written := [] |}.

(** [w.Header().Set(key, value)] replaces the values of [key]. *)
Definition Header_Set (w : ResponseWriter) (key value : string) : ResponseWriter :=
  {| Header :=
       filter (fun kv => negb (String.eqb (fst kv) key)) (Header w)
       ++ [(key, value)];
     sent := sent w;
     written := written w |}.

(** [w.WriteHeader(statusCode)] sends the status and the header as it is
    then; a second call sends nothing. *)
Definition WriteHeader (w : ResponseWriter) (statusCode : nat) : ResponseWriter :=
  match sent w with
  | Some _ => w
  | None =>
      {| Header := Header w;
         sent := Some (statusCode, Header w);
         written := written w |}
  end.

(** Writing to the body sends the status 200 first if none was sent. *)
Definition Encode (w : ResponseWriter) (v : payload) : ResponseWriter :=
  let w := WriteHeader w StatusOK in
  {| Header := Header w; sent := sent w; written := written w ++ [v] |}.

End http.

(** [io.ReadAll(r.Body)] *)
Definition ReadAll (body : gostring * option error) : gostring * option error :=
  body.

(** Helper function to send JSON responses. *)
Definition sendJSONResponse (w : http.ResponseWriter) (success : bool)
    (message : string) (data : option HL7Message) (statusCode : nat)
    : http.ResponseWriter :=
  let response :=
    {| Success := success; Message := message; Data := data |} in
  let w := http.Header_Set w "Content-Type" "application/json" in
  let w := http.WriteHeader w statusCode in
  http.Encode w (jsonResponse response).

(** [handleParseHL7] handles POST requests to parse HL7 messages. *)
Definition handleParseHL7 (w : http.ResponseWriter) (r : http.Request)
    : run http.ResponseWriter :=
  if negb (gostring_eqb (http.Method r) http.MethodPost) then
    Done (sendJSONResponse w false "Method not allowed" None
            http.StatusMethodNotAllowed)
  else
    let '(body, err) := ReadAll (http.Body r) in
    match err with
    | Some _ =>
        Done (sendJSONResponse w false "Error reading request body" None
                http.StatusBadRequest)
    | None =>
        match ParseHL7Message body with
        | Done (Err err) =>
            Done (sendJSONResponse w false
                    ("Error parsing HL7 message: " ++ Error err)%string None
                    http.StatusBadRequest)
        | Done (Ok message) =>
            Done (sendJSONResponse w true "HL7 message parsed successfully"
                    (Some message) http.StatusOK)
        | Panic => Panic
        | OutOfFuel => OutOfFuel
        end
    end.

(** [handleGenerateHL7] handles GET requests to generate sample HL7
    messages; [currentTime] is the formatted time of the call. *)
Definition handleGenerateHL7 (currentTime : gostring) (w : http.ResponseWriter)
    (r : http.Request) : http.ResponseWriter :=
  if negb (gostring_eqb (http.Method r) http.MethodGet) then
    sendJSONResponse w false "Method not allowed" None
      http.StatusMethodNotAllowed
  else
    let message := GenerateSampleMessage currentTime in
    sendJSONResponse w true "HL7 message generated successfully"
      (Some message) http.StatusOK.

(** Health check endpoint. *)
Definition handleHealth (w : http.ResponseWriter) (r : http.Request)
    : http.ResponseWriter :=
  sendJSONResponse w true "Service is healthy" None http.StatusOK.

(** Version information endpoint; [Version] and [BuildDate] are the package
    variables, set during the build. *)
Definition handleVersion (Version BuildDate : string) (w : http.ResponseWriter)
    (r : http.Request) : http.ResponseWriter :=
  let w := http.Header_Set w "Content-Type" "application/json" in
  http.Encode w (jsonVersion Version BuildDate).

(** The response that a handler has sent through a new writer: the status,
    the content type at that moment, and the one value written. *)
Definition reply (w : http.ResponseWriter) : option (nat * string * payload) :=
  match http.sent w, http.written w with
  | Some (status, [(key, value)]), [v] =>
      if String.eqb key "Content-Type" then Some (status, value, v) else None
  | _, _ => None
  end.

(** ** Lemmas on [break], [strings.Index] and [strings.Split] *)

Section Break.

Variable c : ascii.

Lemma break_Some (s h t : gostring) :
  break c s = (h, Some t) -> s = h ++ c :: t /\ ~ In c h.
Proof.
  revert h t; induction s as [|d s IH]; simpl; intros h t E.
  - discriminate.
  - destruct (Ascii.eqb_spec d c) as [->|N].
    + inversion E; subst; auto.
    + destruct (break c s) as [h' t'] eqn:B. inversion E; subst.
      destruct (IH h' t eq_refl) as [-> NI]. split; [reflexivity|].
      simpl; intros [?|?]; [auto | contradiction].
Qed.

Lemma break_None (s h : gostring) :
  break c s = (h, None) -> h = s /\ ~ In c s.
Proof.
  revert h; induction s as [|d s IH]; simpl; intros h E.
  - inversion E; auto.
  - destruct (Ascii.eqb_spec d c) as [->|N]; [discriminate|].
    destruct (break c s) as [h' t'] eqn:B. inversion E; subst.
    destruct (IH h' eq_refl) as [-> NI]. split; [reflexivity|].
    simpl; intros [?|?]; [auto | contradiction].
Qed.

Lemma break_notin (s : gostring) : ~ In c s -> break c s = (s, None).
Proof.
  induction s as [|d s IH]; simpl; intros NI; [reflexivity|].
  destruct (Ascii.eqb_spec d c) as [->|N]; [tauto|].
  rewrite IH by tauto. reflexivity.
Qed.

Lemma break_found (h t : gostring) :
  ~ In c h -> break c (h ++ c :: t) = (h, Some t).
Proof.
  induction h as [|d h IH]; simpl; intros NI.
  - rewrite Ascii.eqb_refl. reflexivity.
  - destruct (Ascii.eqb_spec d c) as [->|N]; [tauto|].
    rewrite IH by tauto. reflexivity.
Qed.

Lemma break_app_Some (a b h t : gostring) :
  break c a = (h, Some t) -> break c (a ++ b) = (h, Some (t ++ b)).
Proof.
  intros E. destruct (break_Some _ _ _ E) as [-> NI].
  rewrite <- app_assoc. simpl. apply break_found; assumption.
Qed.

Lemma break_app_None (a b h : gostring) :
  break c a = (h, None) ->
  break c (a ++ b) = (a ++ fst (break c b), snd (break c b)).
Proof.
  intros E. destruct (break_None _ _ E) as [_ NI]. clear E h.
  induction a as [|d a IH]; simpl.
  - destruct (break c b); reflexivity.
  - destruct (Ascii.eqb_spec d c) as [->|N]; [simpl in NI; tauto|].
    rewrite IH by (simpl in NI; tauto). reflexivity.
Qed.

Lemma HasPrefix_byte (s : gostring) :
  strings.HasPrefix s [c] =
  match s with
  | [] => false
  | d :: _ => Ascii.eqb d c
  end.
Proof. destruct s; simpl; [reflexivity | apply andb_true_r]. Qed.

Lemma Index_break (s : gostring) :
  strings.Index s [c] =
  match break c s with
  | (h, Some _) => Some (length h)
  | (_, None) => None
  end.
Proof.
  induction s as [|d s IH].
  - reflexivity.
  - cbn [strings.Index break]. rewrite HasPrefix_byte.
    destruct (Ascii.eqb d c); [reflexivity|].
    rewrite IH. destruct (break c s) as [h [t|]]; reflexivity.
Qed.

Lemma break_firstn_skipn (s h t : gostring) :
  break c s = (h, Some t) ->
  firstn (length h) s = h /\ skipn (length h + 1) s = t.
Proof.
  intros E. destruct (break_Some _ _ _ E) as [-> _]. split.
  - rewrite firstn_app, Nat.sub_diag, firstn_all. simpl. apply app_nil_r.
  - rewrite skipn_app, skipn_all2 by lia. simpl.
    replace (length h + 1 - length h) with 1 by lia. reflexivity.
Qed.

Lemma splitOn_break (s : gostring) :
  splitOn c s =
  fst (break c s) :: match snd (break c s) with
                     | Some t => splitOn c t
                     | None => []
                     end.
Proof.
  induction s as [|d s IH]; simpl; [reflexivity|].
  destruct (Ascii.eqb d c); [reflexivity|].
  rewrite IH. destruct (break c s) as [h t]. reflexivity.
Qed.

Lemma genSplit_splitOn (n : nat) (s : gostring) :
  length s <= n -> strings.genSplit n s [c] = splitOn c s.
Proof.
  revert s; induction n as [|n IH]; intros s L.
  - destruct s; [reflexivity | simpl in L; lia].
  - cbn [strings.genSplit]. rewrite Index_break, splitOn_break.
    destruct (break c s) as [h [t|]] eqn:B; cbn [fst snd].
    + destruct (break_firstn_skipn _ _ _ B) as [F K].
      cbn [length]. rewrite F, K. apply f_equal. apply IH.
      destruct (break_Some _ _ _ B) as [-> _].
      rewrite length_app in L. simpl in L. lia.
    + destruct (break_None _ _ B) as [-> _]. reflexivity.
Qed.

Lemma Split_splitOn (s : gostring) : strings.Split s [c] = splitOn c s.
Proof. apply genSplit_splitOn. apply le_n. Qed.

Lemma splitOn_length (s : gostring) : 1 <= length (splitOn c s).
Proof. rewrite splitOn_break. simpl. lia. Qed.

End Break.

Lemma genSplit_length (n : nat) (s sep : gostring) :
  1 <= length (strings.genSplit n s sep).
Proof. destruct n; simpl; [lia|]. destruct (strings.Index s sep); simpl; lia. Qed.

Lemma chunks_break (s : gostring) :
  s <> [] ->
  chunks s =
  fst (break CR s) :: chunks (match snd (break CR s) with
                              | Some t => t
                              | None => []
                              end).
Proof.
  induction s as [|d s IH]; intros NE; [congruence|]. simpl.
  destruct (Ascii.eqb d CR); [reflexivity|].
  destruct s as [|e s]; [reflexivity|].
  rewrite IH by discriminate. destruct (break CR (e :: s)) as [h t]. reflexivity.
Qed.

(** ** What the scanner does with [splitSegments] *)

Lemma splitSegments_break (data : gostring) (atEOF : bool) :
  splitSegments data atEOF =
  match break CR data with
  | (h, Some _) => (length h + 1, Some h)
  | (_, None) =>
      if atEOF && negb (length data =? 0) then (length data, Some data)
      else (0, None)
  end.
Proof.
  unfold splitSegments, SegmentSeparator. rewrite Index_break.
  destruct (break CR data) as [h [t|]] eqn:B.
  - destruct (break_firstn_skipn _ _ _ _ B) as [F _]. rewrite F.
    destruct (break_Some _ _ _ _ B) as [-> _].
    destruct h; simpl; rewrite andb_false_r; reflexivity.
  - destruct atEOF, data; reflexivity.
Qed.

Lemma MaxScanTokenSize_pos : 0 < bufio.MaxScanTokenSize.
Proof. unfold bufio.MaxScanTokenSize. lia. Qed.

Lemma MaxScanTokenSize_maxInt (n : nat) :
  n <= bufio.MaxScanTokenSize -> (bufio.maxInt / 2 <? Z.of_nat n)%Z = false.
Proof.
  intros L. apply Z.ltb_ge.
  apply Z.le_trans with (Z.of_nat bufio.MaxScanTokenSize); [lia|].
  vm_compute. discriminate.
Qed.

Lemma tryToken_splitSegments (s : bufio.Scanner) :
  bufio.split s = splitSegments ->
  bufio.tryToken s =
  match break CR (bufio.data s) with
  | (h, Some t) =>
      bufio.Return (Done (true,
        bufio.set_empties 0
          (bufio.set_token (Some h)
             (bufio.set_window (bufio.start s + (length h + 1)) t s))))
  | (_, None) =>
      if bufio.failed s then
        if length (bufio.data s) =? 0 then
          bufio.Continue
            (bufio.set_token None
               (bufio.set_window (bufio.start s + 0) (bufio.data s) s))
        else
          bufio.Return (Done (true,
            bufio.set_empties 0
              (bufio.set_token (Some (bufio.data s))
                 (bufio.set_window (bufio.start s + length (bufio.data s)) [] s))))
      else
        if 0 <? length (bufio.data s) then
          bufio.Continue
            (bufio.set_token None
               (bufio.set_window (bufio.start s + 0) (bufio.data s) s))
        else bufio.Continue s
  end.
Proof.
  intros Hsp. unfold bufio.tryToken. rewrite Hsp, splitSegments_break.
  destruct (break CR (bufio.data s)) as [h [t|]] eqn:B.
  - destruct (break_firstn_skipn _ _ _ _ B) as [_ K].
    destruct (break_Some _ _ _ _ B) as [E _].
    assert (L : length (bufio.data s) = length h + 1 + length t)
      by (rewrite E, length_app; simpl; lia).
    replace (0 <? length (bufio.data s)) with true
      by (symmetry; apply Nat.ltb_lt; lia).
    replace (length (bufio.data s) <? length h + 1) with false
      by (symmetry; apply Nat.ltb_ge; lia).
    replace (0 <? length h + 1) with true by (symmetry; apply Nat.ltb_lt; lia).
    rewrite K, orb_true_r. reflexivity.
  - destruct (bufio.failed s) eqn:F; cbn [andb orb].
    + rewrite orb_true_r.
      destruct (Nat.eqb_spec (length (bufio.data s)) 0) as [Z|NZ]; cbn [negb].
      * rewrite Z. reflexivity.
      * rewrite Nat.ltb_irrefl, skipn_all.
        replace (0 <? length (bufio.data s)) with true
          by (symmetry; apply Nat.ltb_lt; lia).
        rewrite orb_true_r. reflexivity.
    + rewrite orb_false_r.
      destruct (0 <? length (bufio.data s)); reflexivity.
Qed.

(** The second half of a round, when no error is set: the scan ends with
    [ErrTooLong] on a full buffer of the largest size, or the buffer has room
    and is read into. *)
Lemma fill_inv (s : bufio.Scanner) :
  inv s -> bufio.err s = None ->
  (bufio.MaxScanTokenSize <= length (bufio.data s) /\
   exists s', bufio.fill s = bufio.Return (Done (false, s')) /\
              bufio.Err s' = Some ErrTooLong)
  \/
  (exists s3, bufio.fill s = bufio.Continue (bufio.readMore s3) /\
              bufio.r s3 = bufio.r s /\ bufio.data s3 = bufio.data s /\
              bufio.err s3 = None /\ bufio.split s3 = splitSegments /\
              bufio.maxTokenSize s3 = bufio.MaxScanTokenSize /\
              bufio.end_ s3 < bufio.buf_len s3 /\
              bufio.buf_len s3 <= bufio.MaxScanTokenSize).
Proof.
  intros [Hsp Hmx Hend Hbuf _] He.
  open_scanner s. subst sp mx e.
  unfold bufio.fill, bufio.failed, bufio.shift, bufio.end_. fields.
  destruct ((0 <? st) && ((st + length d =? bl) || (bl / 2 <? st))) eqn:Sh;
    unfold bufio.set_window; fields.
  - (* shifted *)
    apply andb_prop in Sh. destruct Sh as [Sh _]. apply Nat.ltb_lt in Sh.
    destruct (Nat.eqb_spec (0 + length d) bl) as [Full|NotFull]; [lia|].
    right. eexists. split; [reflexivity|]. fields.
    repeat split; try reflexivity; lia.
  - destruct (Nat.eqb_spec (st + length d) bl) as [Full|NotFull].
    + assert (st = 0) by (destruct st; [reflexivity | discriminate Sh]).
      subst st. simpl in Full.
      rewrite MaxScanTokenSize_maxInt by assumption. rewrite orb_false_r.
      destruct (Nat.leb_spec bufio.MaxScanTokenSize bl) as [Big|Small].
      * left. split; [lia|]. eexists. split; reflexivity.
      * right. eexists. split; [reflexivity|].
        unfold bufio.set_buf_len; fields.
        repeat split; try reflexivity.
        -- destruct (Nat.eqb_spec (bl * 2) 0); unfold bufio.startBufSize; lia.
        -- apply Nat.le_min_r.
    + right. eexists. split; [reflexivity|]. fields.
      repeat split; try reflexivity; lia.
Qed.

(** The read keeps the text; it takes at least one byte from the reader, or
    finds the end of the input. *)
Lemma readMore_inv (s : bufio.Scanner) :
  bufio.err s = None -> bufio.split s = splitSegments ->
  bufio.maxTokenSize s = bufio.MaxScanTokenSize ->
  bufio.end_ s < bufio.buf_len s ->
  bufio.buf_len s <= bufio.MaxScanTokenSize ->
  inv (bufio.readMore s) /\ rest (bufio.readMore s) = rest s /\
  ((bufio.r s = [] /\ bufio.err (bufio.readMore s) = Some EOF) \/
   (bufio.err (bufio.readMore s) = None /\
    length (bufio.r (bufio.readMore s)) < length (bufio.r s))).
Proof.
  intros He Hsp Hmx Hend Hbuf. open_scanner s. subst e sp mx.
  unfold bufio.readMore, strings.Read, bufio.end_. fields.
  destruct rd as [|x rd].
  - unfold bufio.setErr, bufio.set_r, bufio.set_window, bufio.set_err. fields.
    rewrite !app_nil_r. split; [|split; [reflexivity | left; split; reflexivity]].
    constructor; unfold bufio.end_; fields;
      try reflexivity; try lia; try assumption.
    right. repeat split; assumption.
  - destruct (bl - (st + length d)) as [|k] eqn:K; [lia|].
    cbn [firstn skipn].
    unfold bufio.set_empties, bufio.set_r, bufio.set_window. fields.
    split; [|split].
    + constructor; unfold bufio.end_; fields;
        try reflexivity; try assumption; [|left; reflexivity].
      rewrite length_app. cbn [length]. rewrite length_firstn. lia.
    + rewrite <- app_assoc. cbn [app]. rewrite firstn_skipn. reflexivity.
    + right. split; [reflexivity|]. cbn [length]. rewrite length_skipn. lia.
Qed.

(** At the end of the input one round decides. *)
Lemma Scan_loop_eof (s : bufio.Scanner) (fuel : nat) :
  inv s -> bufio.err s = Some EOF -> 1 <= fuel ->
  ScanPost (rest s) (bufio.Scan_loop fuel s).
Proof.
  intros [Hsp Hmx Hend Hbuf Herr] He Hf.
  destruct fuel as [|fuel]; [lia|]. clear Hf.
  cbn [bufio.Scan_loop]. rewrite (tryToken_splitSegments _ Hsp).
  open_scanner s. subst sp mx e.
  destruct Herr as [?|(_ & -> & Hlt)]; [discriminate|].
  rewrite app_nil_r. unfold ScanPost, bufio.failed. fields.
  destruct (break CR d) as [h [t|]] eqn:B.
  - destruct (break_Some _ _ _ _ B) as [E _].
    assert (L : length d = length h + 1 + length t)
      by (rewrite E, length_app; simpl; lia).
    destruct d as [|x d]; [simpl in L; lia|].
    replace (length h <? bufio.MaxScanTokenSize) with true
      by (symmetry; apply Nat.ltb_lt; lia).
    eexists. split; [reflexivity|].
    unfold bufio.Text, bufio.set_empties, bufio.set_token, bufio.set_window,
      rest. fields.
    split; [reflexivity|]. split; [|apply app_nil_r].
    constructor; unfold bufio.end_; fields; try reflexivity; try lia.
    right. repeat split; lia.
  - destruct (break_None _ _ _ B) as [-> _].
    destruct d as [|x d].
    + cbn [length Nat.eqb]. unfold bufio.fill, bufio.failed. fields.
      eexists. split; reflexivity.
    + cbn [length Nat.eqb].
      replace (S (length d) <? bufio.MaxScanTokenSize) with true
        by (symmetry; apply Nat.ltb_lt; simpl in Hlt; lia).
      eexists. split; [reflexivity|].
      unfold bufio.Text, bufio.set_empties, bufio.set_token, bufio.set_window,
        rest. fields.
      split; [reflexivity|]. split; [|reflexivity].
      constructor; unfold bufio.end_; fields; try reflexivity; simpl in *; try lia.
      right. repeat split; lia.
Qed.

(** Before the end of the input: by induction on what the reader holds. *)
Lemma Scan_loop_spec (n : nat) :
  forall (s : bufio.Scanner) (fuel : nat),
    length (bufio.r s) <= n -> inv s -> bufio.err s = None -> n + 2 <= fuel ->
    ScanPost (rest s) (bufio.Scan_loop fuel s).
Proof.
  induction n as [n IH] using lt_wf_ind. intros s fuel Hn Hinv He Hf.
  destruct fuel as [|fuel]; [lia|].
  cbn [bufio.Scan_loop]. rewrite (tryToken_splitSegments _ (inv_split _ Hinv)).
  destruct (break CR (bufio.data s)) as [h [t|]] eqn:B.
  - (* the window holds a carriage return *)
    unfold rest. destruct (break_Some _ _ _ _ B) as [E _].
    assert (L : length (bufio.data s) = length h + 1 + length t)
      by (rewrite E, length_app; simpl; lia).
    unfold ScanPost. rewrite (break_app_Some _ _ (bufio.r s) _ _ B).
    destruct (bufio.data s ++ bufio.r s) eqn:T.
    { apply (f_equal (@length ascii)) in T. rewrite length_app in T.
      simpl in T. lia. }
    destruct Hinv as [Hsp Hmx Hend Hbuf Herr]. unfold bufio.end_ in *.
    replace (length h <? bufio.MaxScanTokenSize) with true
      by (symmetry; apply Nat.ltb_lt; lia).
    eexists. split; [reflexivity|].
    unfold bufio.Text, bufio.set_empties, bufio.set_token, bufio.set_window,
      rest. fields.
    split; [reflexivity|]. split; [|reflexivity].
    constructor; unfold bufio.end_; fields; try assumption; try lia.
    left; assumption.
  - (* no carriage return in the window: read on *)
    destruct (break_None _ _ _ B) as [_ NI].
    assert (C : exists s1,
      (if bufio.failed s
       then if length (bufio.data s) =? 0
            then bufio.Continue
                   (bufio.set_token None
                      (bufio.set_window (bufio.start s + 0) (bufio.data s) s))
            else bufio.Return (Done (true,
                   bufio.set_empties 0
                     (bufio.set_token (Some (bufio.data s))
                        (bufio.set_window
                           (bufio.start s + length (bufio.data s)) [] s))))
       else if 0 <? length (bufio.data s)
            then bufio.Continue
                   (bufio.set_token None
                      (bufio.set_window (bufio.start s + 0) (bufio.data s) s))
            else bufio.Continue s) = bufio.Continue s1 /\
      inv s1 /\ bufio.err s1 = None /\ bufio.r s1 = bufio.r s /\
      bufio.data s1 = bufio.data s).
    { unfold bufio.failed. rewrite He.
      destruct (0 <? length (bufio.data s)).
      - eexists. split; [reflexivity|].
        destruct Hinv as [Hsp Hmx Hend Hbuf Herr].
        unfold bufio.set_token, bufio.set_window. fields.
        repeat split; try assumption; unfold bufio.end_ in *; fields; try lia.
        left; assumption.
      - exists s. split; [reflexivity|]. split; [assumption|].
        repeat split; assumption. }
    destruct C as (s1 & -> & Hinv1 & He1 & Hr1 & Hd1).
    destruct (fill_inv s1 Hinv1 He1) as [[Big (s' & -> & Herr')] |
      (s3 & -> & Hr3 & Hd3 & He3 & Hsp3 & Hmx3 & Hend3 & Hbuf3)].
    + (* the buffer cannot grow any more *)
      rewrite Hd1 in Big. unfold rest, ScanPost.
      rewrite (break_app_None _ _ (bufio.r s) _ B).
      pose proof MaxScanTokenSize_pos as P.
      destruct (bufio.data s ++ bufio.r s) eqn:T.
      { apply (f_equal (@length ascii)) in T. rewrite length_app in T.
        simpl in T. lia. }
      replace (length (bufio.data s ++ fst (break CR (bufio.r s)))
               <? bufio.MaxScanTokenSize) with false
        by (symmetry; apply Nat.ltb_ge; rewrite length_app; lia).
      exists s'. split; [reflexivity | assumption].
    + destruct (readMore_inv s3 He3 Hsp3 Hmx3 Hend3 Hbuf3)
        as (Hinv4 & Hrest4 & [[Hnil He4] | [He4 Hlen4]]).
      * replace (rest s) with (rest (bufio.readMore s3))
          by (rewrite Hrest4; unfold rest; congruence).
        apply Scan_loop_eof; [assumption | assumption | lia].
      * replace (rest s) with (rest (bufio.readMore s3))
          by (rewrite Hrest4; unfold rest; congruence).
        apply (IH (length (bufio.r (bufio.readMore s3)))).
        -- rewrite Hr3, Hr1 in Hlen4. lia.
        -- apply le_n.
        -- assumption.
        -- assumption.
        -- rewrite Hr3, Hr1 in Hlen4. lia.
Qed.

(** [Scan] meets [ScanPost] from every state the parser can be in. *)
Lemma Scan_spec (s : bufio.Scanner) :
  inv s -> ScanPost (rest s) (bufio.Scan s).
Proof.
  intros Hinv. unfold bufio.Scan.
  destruct (inv_err _ Hinv) as [He | (He & _)].
  - apply (Scan_loop_spec (length (bufio.r s))); [apply le_n | assumption .. | lia].
  - apply Scan_loop_eof; [assumption | assumption | lia].
Qed.

(** ** [Scan] ends, whatever the split function

    The fuel of [bufio.Scan] is enough for every scanner: a round that goes
    on has taken a byte from the reader or has set an error, and a round
    that starts with an error set is the last. *)

Lemma tryToken_Continue (s s1 : bufio.Scanner) :
  bufio.tryToken s = bufio.Continue s1 ->
  bufio.r s1 = bufio.r s /\ bufio.err s1 = bufio.err s.
Proof.
  unfold bufio.tryToken.
  destruct ((0 <? length (bufio.data s)) || bufio.failed s).
  - destruct (bufio.split s (bufio.data s) (bufio.failed s)) as [advance tok].
    destruct (length (bufio.data s) <? advance); [discriminate|].
    destruct tok as [t|].
    + destruct (negb _ || _); [discriminate|].
      destruct (bufio.maxConsecutiveEmptyReads <? _); discriminate.
    + intros E. inversion E. split; reflexivity.
  - intros E. inversion E. split; reflexivity.
Qed.

Lemma tryToken_Return (s : bufio.Scanner) :
  bufio.tryToken s <> bufio.Return OutOfFuel.
Proof.
  unfold bufio.tryToken.
  destruct ((0 <? length (bufio.data s)) || bufio.failed s); [|discriminate].
  destruct (bufio.split s (bufio.data s) (bufio.failed s)) as [advance tok].
  destruct (length (bufio.data s) <? advance); [discriminate|].
  destruct tok as [t|]; [|discriminate].
  destruct (negb _ || _); [discriminate|].
  destruct (bufio.maxConsecutiveEmptyReads <? _); discriminate.
Qed.

Lemma readMore_progress (s : bufio.Scanner) :
  bufio.err s = None ->
  bufio.failed (bufio.readMore s) = true \/
  length (bufio.r (bufio.readMore s)) < length (bufio.r s).
Proof.
  intros He. unfold bufio.readMore, strings.Read.
  destruct (bufio.r s) as [|x rd] eqn:R.
  - left. unfold bufio.setErr, bufio.failed. cbn. rewrite He. reflexivity.
  - destruct (bufio.buf_len s - bufio.end_ s) as [|k].
    + left. unfold bufio.setErr, bufio.failed. cbn. rewrite He. reflexivity.
    + right. cbn. rewrite length_skipn. lia.
Qed.

Lemma fill_Continue (s s2 : bufio.Scanner) :
  bufio.fill s = bufio.Continue s2 ->
  bufio.failed s2 = true \/ length (bufio.r s2) < length (bufio.r s).
Proof.
  unfold bufio.fill. destruct (bufio.failed s) eqn:F; [discriminate|].
  assert (He : bufio.err s = None)
    by (unfold bufio.failed in F; destruct (bufio.err s); [discriminate | reflexivity]).
  assert (Hs : bufio.err (bufio.shift s) = None /\ bufio.r (bufio.shift s) = bufio.r s)
    by (unfold bufio.shift; destruct (_ && _); split; assumption || reflexivity).
  destruct Hs as [Hes Hrs].
  destruct (bufio.end_ (bufio.shift s) =? bufio.buf_len (bufio.shift s)).
  - destruct (_ || _); [discriminate|]. intros E. inversion E. rewrite <- Hrs.
    apply (readMore_progress
             (bufio.set_buf_len _ (bufio.set_window 0 _ (bufio.shift s)))).
    exact Hes.
  - intros E. inversion E. rewrite <- Hrs. apply readMore_progress. exact Hes.
Qed.

Lemma fill_Return (s : bufio.Scanner) : bufio.fill s <> bufio.Return OutOfFuel.
Proof.
  unfold bufio.fill. destruct (bufio.failed s); [discriminate|].
  destruct (_ =? _); [|discriminate]. destruct (_ || _); discriminate.
Qed.

Lemma Scan_loop_failed (s : bufio.Scanner) (fuel : nat) :
  bufio.failed s = true -> 1 <= fuel -> bufio.Scan_loop fuel s <> OutOfFuel.
Proof.
  intros F Hf. destruct fuel as [|fuel]; [lia|]. cbn [bufio.Scan_loop].
  pose proof (tryToken_Return s) as TR.
  destruct (bufio.tryToken s) as [o|s1] eqn:T; [congruence|].
  destruct (tryToken_Continue _ _ T) as [_ He].
  unfold bufio.fill, bufio.failed in *. rewrite He.
  destruct (bufio.err s); discriminate.
Qed.

Lemma Scan_loop_total (n : nat) :
  forall (s : bufio.Scanner) (fuel : nat),
    length (bufio.r s) <= n -> n + 2 <= fuel ->
    bufio.Scan_loop fuel s <> OutOfFuel.
Proof.
  induction n as [n IH] using lt_wf_ind. intros s fuel Hn Hf.
  destruct fuel as [|fuel]; [lia|]. cbn [bufio.Scan_loop].
  pose proof (tryToken_Return s) as TR.
  destruct (bufio.tryToken s) as [o|s1] eqn:T; [congruence|].
  destruct (tryToken_Continue _ _ T) as [Hr _].
  pose proof (fill_Return s1) as FR.
  destruct (bufio.fill s1) as [o|s2] eqn:F; [congruence|].
  destruct (fill_Continue _ _ F) as [Hfail | Hlt].
  - apply Scan_loop_failed; [assumption | lia].
  - rewrite Hr in Hlt. apply (IH (length (bufio.r s2))); lia.
Qed.

(** [Scan] returns or panics; the model never cuts it off. *)
Lemma Scan_total (s : bufio.Scanner) : bufio.Scan s <> OutOfFuel.
Proof.
  unfold bufio.Scan. apply (Scan_loop_total (length (bufio.r s))); lia.
Qed.

(** ** What [ParseHL7Message] computes *)

Lemma break_shorter (c : ascii) (s h : gostring) (t : option gostring) :
  s <> [] -> break c s = (h, t) ->
  length match t with Some t => t | None => [] end < length s.
Proof.
  intros NE B. destruct t as [t|].
  - destruct (break_Some _ _ _ _ B) as [-> _]. rewrite length_app. simpl. lia.
  - destruct s; [congruence | simpl; lia].
Qed.

Lemma scanSegments_spec (n : nat) :
  forall (scanner : bufio.Scanner) (message : HL7Message) (fuel : nat),
    length (rest scanner) <= n -> inv scanner -> n + 1 <= fuel ->
    scanSegments fuel scanner message =
    Done (parseChunks (chunks (rest scanner)) message).
Proof.
  induction n as [n IH] using lt_wf_ind. intros scanner message fuel Hn Hinv Hf.
  destruct fuel as [|fuel]; [lia|]. cbn [scanSegments].
  pose proof (Scan_spec scanner Hinv) as P. unfold ScanPost in P.
  destruct (rest scanner) as [|a l] eqn:T.
  - destruct P as (s' & -> & E). rewrite E. reflexivity.
  - rewrite chunks_break by discriminate.
    pose proof (break_shorter CR (a :: l)) as Sh.
    destruct (break CR (a :: l)) as [h t].
    specialize (Sh h t ltac:(discriminate) eq_refl).
    cbn [fst snd parseChunks].
    destruct (length h <? bufio.MaxScanTokenSize).
    + destruct P as (s' & -> & Htext & Hinv' & Hrest). rewrite Htext, <- Hrest.
      assert (Sh' : length (rest s') < length (a :: l))
        by (rewrite Hrest; exact Sh).
      clear Sh.
      destruct (length h =? 0).
      * apply (IH (length (rest s'))); [lia | apply le_n | assumption | lia].
      * change FieldSeparator with ["|"%char]. rewrite Split_splitOn.
        replace (length (splitOn "|" h) <? 1) with false
          by (symmetry; apply Nat.ltb_ge; apply splitOn_length).
        apply (IH (length (rest s'))); [lia | apply le_n | assumption | lia].
    + destruct P as (s' & -> & E). rewrite E. reflexivity.
Qed.

(** The parser is the loop [parseChunks] over the chunks of its input: it
    returns, and neither panics nor runs out of fuel. *)
Theorem ParseHL7Message_chunks (messageStr : gostring) :
  ParseHL7Message messageStr =
  Done (parseChunks (chunks messageStr) NewHL7Message).
Proof.
  unfold ParseHL7Message.
  rewrite (scanSegments_spec (length messageStr)); [reflexivity | | | lia].
  - apply le_n.
  - constructor; cbn; try reflexivity; try lia. left; reflexivity.
Qed.

Lemma parseChunks_short (cs : list gostring) (message : HL7Message) :
  Forall (fun c => length c < bufio.MaxScanTokenSize) cs ->
  parseChunks cs message =
  Ok {| Segments := Segments message ++ map toSegment (filter nonEmpty cs) |}.
Proof.
  intros F. revert message. induction F as [|c cs Hc F IH]; intros message.
  - simpl. rewrite app_nil_r. destruct message; reflexivity.
  - cbn [parseChunks filter]. apply Nat.ltb_lt in Hc. rewrite Hc.
    unfold nonEmpty at 1. destruct (length c =? 0); cbn [negb].
    + apply IH.
    + rewrite IH. cbn [Segments map]. rewrite <- app_assoc. reflexivity.
Qed.

Lemma parseChunks_cases (cs : list gostring) (message : HL7Message) :
  (exists segments,
     parseChunks cs message = Ok {| Segments := Segments message ++ segments |} /\
     Forall (fun c => length c < bufio.MaxScanTokenSize) cs /\
     segments = map toSegment (filter nonEmpty cs)) \/
  (parseChunks cs message = Err ErrTooLong /\
   Exists (fun c => bufio.MaxScanTokenSize <= length c) cs).
Proof.
  revert message. induction cs as [|c cs IH]; intros message.
  - left. exists []. simpl. rewrite app_nil_r. destruct message. auto.
  - cbn [parseChunks filter].
    destruct (Nat.ltb_spec (length c) bufio.MaxScanTokenSize) as [Hc|Hc].
    + unfold nonEmpty at 1. destruct (length c =? 0); cbn [negb].
      * destruct (IH message) as [(sg & E & F & S)|[E X]].
        -- left. exists sg. auto.
        -- right. auto.
      * destruct (IH {| Segments := Segments message ++ [toSegment c] |})
          as [(sg & E & F & S)|[E X]].
        -- left. exists (toSegment c :: sg). cbn [Segments] in E.
           rewrite <- app_assoc in E. subst sg. auto.
        -- right. auto.
    + right. auto.
Qed.

(** ** Serialization *)

Lemma writeFields (fields : list gostring) (b : strings.Builder) :
  fold_left
    (fun (b : strings.Builder) (field : gostring) =>
       let b := strings.WriteString b FieldSeparator in
       strings.WriteString b field)
    fields b =
  b ++ concat (map (fun field => FieldSeparator ++ field) fields).
Proof.
  revert b. induction fields as [|f fields IH]; intros b; simpl.
  - symmetry. apply app_nil_r.
  - rewrite IH. unfold strings.WriteString. rewrite <- !app_assoc. reflexivity.
Qed.

Lemma writeSegments (segments : list Segment) (b : strings.Builder) :
  fold_left
    (fun (b : strings.Builder) (segment : Segment) =>
       let b := strings.WriteString b (Type_ segment) in
       let b :=
         fold_left
           (fun (b : strings.Builder) (field : gostring) =>
              let b := strings.WriteString b FieldSeparator in
              strings.WriteString b field)
           (Fields segment) b in
       strings.WriteString b SegmentSeparator)
    segments b =
  b ++ concat (map (fun segment => segmentLine segment ++ SegmentSeparator) segments).
Proof.
  revert b. induction segments as [|g segments IH]; intros b; cbn [fold_left map concat].
  - symmetry. apply app_nil_r.
  - rewrite IH, writeFields. unfold strings.WriteString, segmentLine.
    rewrite <- !app_assoc. reflexivity.
Qed.

Lemma GenerateMessage_serialize (m : HL7Message) :
  GenerateMessage m = serialize m.
Proof. unfold GenerateMessage, strings.String. apply writeSegments. Qed.

(** ** Chunks of a text and lines of a message *)

Lemma chunks_line (l s : gostring) :
  ~ In CR l -> chunks (l ++ CR :: s) = l :: chunks s.
Proof.
  induction l as [|d l IH]; intros NI.
  - reflexivity.
  - cbn [app chunks]. destruct (Ascii.eqb_spec d CR) as [->|N].
    + simpl in NI. tauto.
    + rewrite IH by (simpl in NI; tauto). reflexivity.
Qed.

Lemma chunks_lines (ls : list gostring) :
  Forall (fun l => ~ In CR l) ls ->
  chunks (concat (map (fun l => l ++ [CR]) ls)) = ls.
Proof.
  induction 1 as [|l ls NI F IH]; [reflexivity|].
  cbn [map concat]. rewrite <- app_assoc. cbn [app].
  rewrite chunks_line by assumption. rewrite IH. reflexivity.
Qed.

(** A text that is empty or ends in a carriage return is its chunks, each
    followed by a carriage return. *)
Lemma chunks_concat (s : gostring) :
  last s CR = CR -> concat (map (fun c => c ++ [CR]) (chunks s)) = s.
Proof.
  induction s as [|d s IH]; intros L; [reflexivity|].
  cbn [chunks]. destruct (Ascii.eqb_spec d CR) as [->|N].
  - cbn [map concat app]. rewrite IH; [reflexivity|].
    destruct s; [reflexivity | exact L].
  - destruct s as [|e s]; [simpl in L; congruence|].
    specialize (IH L). destruct (chunks (e :: s)) as [|h t].
    + discriminate IH.
    + cbn [map concat app] in *. rewrite IH. reflexivity.
Qed.

Lemma last_app_CR (a b : gostring) :
  last a CR = CR -> last b CR = CR -> last (a ++ b) CR = CR.
Proof.
  induction a as [|d a IH]; intros La Lb; [exact Lb|].
  destruct a as [|e a].
  - simpl in La. subst d. destruct b; [reflexivity | exact Lb].
  - apply IH; assumption.
Qed.

Lemma serialize_last (m : HL7Message) : last (serialize m) CR = CR.
Proof.
  unfold serialize. induction (Segments m) as [|g segments IH]; [reflexivity|].
  cbn [map concat]. apply last_app_CR; [|exact IH].
  unfold SegmentSeparator. apply last_last.
Qed.

Lemma chunks_snoc_CR (s : gostring) :
  chunks (s ++ [CR]) = chunks s \/ chunks (s ++ [CR]) = chunks s ++ [[]].
Proof.
  induction s as [|d s IH]; [right; reflexivity|].
  cbn [app chunks]. destruct (Ascii.eqb d CR).
  - destruct IH as [->| ->]; [left | right]; reflexivity.
  - destruct IH as [->| ->]; [left; reflexivity|].
    destruct (chunks s); [left | right]; reflexivity.
Qed.

Lemma parseChunks_snoc_empty (cs : list gostring) (message : HL7Message) :
  parseChunks (cs ++ [[]]) message = parseChunks cs message.
Proof.
  revert message. induction cs as [|c cs IH]; intros message.
  - cbn. destruct (Nat.ltb_spec 0 bufio.MaxScanTokenSize) as [_|L];
      [reflexivity|]. pose proof MaxScanTokenSize_pos. lia.
  - cbn [app parseChunks]. rewrite !IH. reflexivity.
Qed.

(** ** Fields of a chunk *)

Lemma splitOn_line (c : ascii) (h t : gostring) :
  ~ In c h -> splitOn c (h ++ c :: t) = h :: splitOn c t.
Proof.
  intros NI. rewrite splitOn_break, (break_found _ _ _ NI). reflexivity.
Qed.

Lemma splitOn_plain (c : ascii) (h : gostring) :
  ~ In c h -> splitOn c h = [h].
Proof.
  intros NI. rewrite splitOn_break, (break_notin _ _ NI). reflexivity.
Qed.

Lemma splitOn_fields (c : ascii) (fields : list gostring) :
  forall ty : gostring,
    ~ In c ty -> Forall (fun f => ~ In c f) fields ->
    splitOn c (ty ++ concat (map (fun field => [c] ++ field) fields)) =
    ty :: fields.
Proof.
  induction fields as [|f fields IH]; intros ty Nty F.
  - cbn [map concat]. rewrite app_nil_r. apply splitOn_plain. assumption.
  - inversion F as [|? ? Nf F']; subst.
    cbn [map concat app]. rewrite splitOn_line by assumption.
    rewrite IH by assumption. reflexivity.
Qed.

(** Joining the pieces with the separator gives the text back. *)
Lemma splitOn_join (c : ascii) (s : gostring) :
  nth 0 (splitOn c s) [] ++
  concat (map (fun field => [c] ++ field) (skipn 1 (splitOn c s))) = s.
Proof.
  induction s as [|d s IH]; [reflexivity|].
  cbn [splitOn]. destruct (Ascii.eqb_spec d c) as [->|N].
  - cbn [nth skipn app]. pose proof (splitOn_length c s) as L.
    destruct (splitOn c s) as [|h t]; [simpl in L; lia|].
    cbn [map concat app nth skipn] in *. rewrite IH. reflexivity.
  - pose proof (splitOn_length c s) as L.
    destruct (splitOn c s) as [|h t]; [simpl in L; lia|].
    cbn [map concat app nth skipn] in *. rewrite IH. reflexivity.
Qed.

Lemma segmentLine_toSegment (chunk : gostring) :
  segmentLine (toSegment chunk) = chunk.
Proof. apply (splitOn_join "|"%char). Qed.

Lemma toSegment_segmentLine (segment : Segment) :
  ~ In "|"%char (Type_ segment) ->
  Forall (fun f => ~ In "|"%char f) (Fields segment) ->
  toSegment (segmentLine segment) = segment.
Proof.
  intros Nty F. unfold toSegment, segmentLine.
  change FieldSeparator with ["|"%char].
  rewrite splitOn_fields by assumption. destruct segment; reflexivity.
Qed.

Lemma hasByte_false (c : ascii) (s : gostring) :
  hasByte c s = false -> ~ In c s.
Proof.
  intros H I. assert (E : hasByte c s = true).
  { apply existsb_exists. exists c. split; [assumption | apply Ascii.eqb_refl]. }
  congruence.
Qed.

Lemma plain_spec (s : gostring) :
  plain s = true -> ~ In CR s /\ ~ In "|"%char s.
Proof.
  unfold plain. intros H. apply andb_prop in H. destruct H as [A B].
  apply negb_true_iff in A, B. split; apply hasByte_false; assumption.
Qed.

Lemma plain_iff (s : gostring) :
  plain s = true <-> ~ In CR s /\ ~ In "|"%char s.
Proof.
  split; [apply plain_spec|]. intros [A B]. unfold plain, hasByte.
  apply andb_true_intro. split; apply negb_true_iff;
    apply not_true_is_false; intros E; apply existsb_exists in E;
    destruct E as (x & Hin & Hx); apply Ascii.eqb_eq in Hx; subst x; tauto.
Qed.

Lemma hasContent_spec (segment : Segment) :
  hasContent segment = true <-> Type_ segment <> [] \/ Fields segment <> [].
Proof.
  unfold hasContent. destruct (Type_ segment), (Fields segment); split;
    try discriminate; try reflexivity; intros H.
  - destruct H as [H|H]; congruence.
  - right. discriminate.
  - left. discriminate.
  - left. discriminate.
Qed.

Lemma segmentLine_noCR (segment : Segment) :
  plainSegment segment = true -> ~ In CR (segmentLine segment).
Proof.
  unfold plainSegment, segmentLine. intros H.
  apply andb_prop in H. destruct H as [Hty Hf].
  apply plain_spec in Hty. destruct Hty as [Hty _].
  rewrite forallb_forall in Hf. intros I. apply in_app_or in I.
  destruct I as [I|I]; [tauto|].
  apply in_concat in I. destruct I as (x & Hx & I).
  apply in_map_iff in Hx. destruct Hx as (f & <- & Hin).
  specialize (Hf f Hin). apply plain_spec in Hf.
  change FieldSeparator with ["|"%char] in I. simpl in I.
  destruct I as [I|I]; [discriminate I | tauto].
Qed.

Lemma segmentLine_nonEmpty (segment : Segment) :
  hasContent segment = true -> nonEmpty (segmentLine segment) = true.
Proof.
  unfold hasContent, segmentLine. destruct (Type_ segment); [|reflexivity].
  destruct (Fields segment); [discriminate | reflexivity].
Qed.

Lemma toSegment_plain (segment : Segment) :
  plainSegment segment = true -> toSegment (segmentLine segment) = segment.
Proof.
  unfold plainSegment. intros H. apply andb_prop in H. destruct H as [Hty Hf].
  apply toSegment_segmentLine.
  - apply plain_spec in Hty. tauto.
  - rewrite forallb_forall in Hf. apply Forall_forall. intros f Hin.
    specialize (Hf f Hin). apply plain_spec in Hf. tauto.
Qed.

Lemma serialize_lines (m : HL7Message) :
  serialize m = concat (map (fun l => l ++ [CR]) (map segmentLine (Segments m))).
Proof. unfold serialize. rewrite map_map. reflexivity. Qed.

Lemma filter_all {A : Type} (f : A -> bool) (l : list A) :
  forallb f l = true -> filter f l = l.
Proof.
  induction l as [|a l IH]; simpl; intros H; [reflexivity|].
  apply andb_prop in H. destruct H as [-> H]. rewrite IH by assumption.
  reflexivity.
Qed.

Lemma lines_back (segments : list Segment) :
  forallb plainSegment segments = true ->
  forallb hasContent segments = true ->
  map toSegment (filter nonEmpty (map segmentLine segments)) = segments.
Proof.
  induction segments as [|g segments IH]; intros Hp Hc; [reflexivity|].
  cbn [forallb] in Hp, Hc. apply andb_prop in Hp, Hc.
  destruct Hp as [Hg Hp], Hc as [Hcg Hc].
  cbn [map filter]. rewrite (segmentLine_nonEmpty _ Hcg). cbn [map].
  rewrite (toSegment_plain _ Hg), IH by assumption. reflexivity.
Qed.

Lemma toSegment_hasContent (chunk : gostring) :
  nonEmpty chunk = true -> hasContent (toSegment chunk) = true.
Proof.
  intros NE. pose proof (segmentLine_toSegment chunk) as J.
  unfold segmentLine, hasContent in *.
  destruct (Type_ (toSegment chunk)); [|reflexivity].
  destruct (Fields (toSegment chunk)); [|reflexivity].
  simpl in J. subst chunk. discriminate NE.
Qed.

(** ** The properties of the codec *)

(** Claim C1, as amended.  For every message in which no type and no field
    holds a carriage return or a vertical bar, in which every segment has a
    non-empty type or at least one field, and in which the line of every
    segment (its type, then the bar and the field for each field) is shorter
    than [MaxScanTokenSize] = 65536 bytes, parsing the generated text returns
    the message itself. *)
Theorem round_trip (m : HL7Message) :
  plainMessage m = true ->
  forallb hasContent (Segments m) = true ->
  forallb shortLine (Segments m) = true ->
  ParseHL7Message (GenerateMessage m) = Done (Ok m).
Proof.
  intros Hp Hc Hs.
  rewrite ParseHL7Message_chunks, GenerateMessage_serialize, serialize_lines.
  rewrite chunks_lines.
  - rewrite parseChunks_short.
    + rewrite (lines_back _ Hp Hc). destruct m; reflexivity.
    + apply Forall_map, Forall_forall. intros g Hin.
      rewrite forallb_forall in Hs. apply Nat.ltb_lt. exact (Hs g Hin).
  - apply Forall_map, Forall_forall. intros g Hin.
    unfold plainMessage in Hp. rewrite forallb_forall in Hp.
    apply segmentLine_noCR. exact (Hp g Hin).
Qed.

(** Claim C1, as amended, at the message of the end-to-end scenario. *)
Lemma round_trip_witness :
  plainMessage scenarioMessage = true /\
  forallb hasContent (Segments scenarioMessage) = true /\
  forallb shortLine (Segments scenarioMessage) = true /\
  ParseHL7Message (GenerateMessage scenarioMessage) = Done (Ok scenarioMessage).
Proof.
  assert (Hp : plainMessage scenarioMessage = true) by (vm_compute; reflexivity).
  assert (Hc : forallb hasContent (Segments scenarioMessage) = true)
    by (vm_compute; reflexivity).
  assert (Hs : forallb shortLine (Segments scenarioMessage) = true)
    by (vm_compute; reflexivity).
  split; [exact Hp|]. split; [exact Hc|]. split; [exact Hs|].
  exact (round_trip scenarioMessage Hp Hc Hs).
Defined.

(** Claim C1 as it is stated fails: the segment without type and fields is
    written as a lone carriage return, which the parser reads as an empty
    chunk and drops. *)
Lemma round_trip_bare_segment :
  plainMessage bareSegmentMessage = true /\
  ParseHL7Message (GenerateMessage bareSegmentMessage) = Done (Ok NewHL7Message) /\
  ParseHL7Message (GenerateMessage bareSegmentMessage) <>
  Done (Ok bareSegmentMessage).
Proof.
  split; [vm_compute; reflexivity|].
  assert (E : ParseHL7Message (GenerateMessage bareSegmentMessage) =
              Done (Ok NewHL7Message)) by (vm_compute; reflexivity).
  split; [exact E|]. rewrite E. discriminate.
Qed.

(** Claim C2, as amended.  For every message whose generated text has no
    empty chunk (it does not start with a carriage return and has no two
    carriage returns in a row) and no chunk of [MaxScanTokenSize] = 65536
    bytes or more, parsing the generated text succeeds, and generating the
    text of the parsed message gives the same text again. *)
Theorem reserialize (m : HL7Message) :
  forallb segmentChunk (chunks (GenerateMessage m)) = true ->
  exists parsed,
    ParseHL7Message (GenerateMessage m) = Done (Ok parsed) /\
    GenerateMessage parsed = GenerateMessage m.
Proof.
  intros H. rewrite ParseHL7Message_chunks.
  assert (NE : forallb nonEmpty (chunks (GenerateMessage m)) = true).
  { rewrite forallb_forall in *. intros c Hin. specialize (H c Hin).
    apply andb_prop in H. tauto. }
  rewrite parseChunks_short.
  - rewrite (filter_all _ _ NE). eexists. split; [reflexivity|].
    rewrite (GenerateMessage_serialize {| Segments := _ |}).
    unfold serialize at 1. cbn [Segments NewHL7Message app]. rewrite map_map.
    rewrite (map_ext _ (fun c => c ++ [CR])).
    + apply chunks_concat. rewrite GenerateMessage_serialize.
      apply serialize_last.
    + intros c. rewrite segmentLine_toSegment. reflexivity.
  - apply Forall_forall. intros c Hin. rewrite forallb_forall in H.
    specialize (H c Hin). apply andb_prop in H. apply Nat.ltb_lt. tauto.
Qed.

(** Claim C2, as amended, at the message of the end-to-end scenario. *)
Lemma reserialize_witness :
  forallb segmentChunk (chunks (GenerateMessage scenarioMessage)) = true /\
  exists parsed,
    ParseHL7Message (GenerateMessage scenarioMessage) = Done (Ok parsed) /\
    GenerateMessage parsed = GenerateMessage scenarioMessage.
Proof.
  assert (H : forallb segmentChunk (chunks (GenerateMessage scenarioMessage)) = true)
    by (vm_compute; reflexivity).
  split; [exact H|]. exact (reserialize scenarioMessage H).
Defined.

(** Claim C2 as it is stated fails at the message with one segment that has
    neither type nor fields: its text is a lone carriage return, the parsed
    message has no segment, and the text of that is empty. *)
Lemma reserialize_bare_segment :
  ParseHL7Message (GenerateMessage bareSegmentMessage) = Done (Ok NewHL7Message) /\
  GenerateMessage bareSegmentMessage = [CR] /\
  GenerateMessage NewHL7Message = [] /\
  ~ (exists parsed,
       ParseHL7Message (GenerateMessage bareSegmentMessage) = Done (Ok parsed) /\
       GenerateMessage parsed = GenerateMessage bareSegmentMessage).
Proof.
  assert (E : ParseHL7Message (GenerateMessage bareSegmentMessage) =
              Done (Ok NewHL7Message)) by (vm_compute; reflexivity).
  split; [exact E|]. split; [reflexivity|]. split; [reflexivity|].
  intros (parsed & P & G). rewrite E in P. inversion P; subst parsed.
  discriminate G.
Qed.

(** Claim C3.  [GenerateMessage] is a total function, and its result is the
    concatenation, in segment order, of the type of each segment, then the
    bar and the field for each of its fields in order, then one carriage
    return; nothing else is written. *)
Theorem GenerateMessage_text (m : HL7Message) :
  GenerateMessage m = serialize m /\
  serialize m =
  concat (map (fun segment =>
                 (Type_ segment ++
                  concat (map (fun field => str "|" ++ field) (Fields segment)))
                 ++ [CR])
              (Segments m)).
Proof. split; [apply GenerateMessage_serialize | reflexivity]. Qed.

(** Claim C4.  Splitting a chunk always gives at least one piece, so the
    branch that returns the error "invalid segment format" is never taken:
    [ParseHL7Message] returns a message or the scanner's [ErrTooLong]. *)
Theorem invalid_segment_format_unreachable (messageStr : gostring) :
  (forall chunk, (length (strings.Split chunk FieldSeparator) <? 1) = false) /\
  ((exists message, ParseHL7Message messageStr = Done (Ok message)) \/
   ParseHL7Message messageStr = Done (Err ErrTooLong)) /\
  ParseHL7Message messageStr <> Done (Err (errors_New "invalid segment format")).
Proof.
  split; [|split].
  - intros chunk. apply Nat.ltb_ge. apply genSplit_length.
  - rewrite ParseHL7Message_chunks.
    destruct (parseChunks_cases (chunks messageStr) NewHL7Message)
      as [(sg & -> & _)|[-> _]]; [left; eexists; reflexivity | right; reflexivity].
  - rewrite ParseHL7Message_chunks.
    destruct (parseChunks_cases (chunks messageStr) NewHL7Message)
      as [(sg & -> & _)|[-> _]]; discriminate.
Qed.

(** Claim C5.  The empty input parses, without an error, to a message with no
    segments. *)
Theorem parse_empty :
  ParseHL7Message (str "") = Done (Ok {| Segments := [] |}).
Proof. vm_compute. reflexivity. Qed.

(** Claim C6.  ["MSH|a|b\r\rPID|c\r"] parses to exactly two segments, [MSH]
    with fields [a], [b] and [PID] with field [c]: the two carriage returns
    in a row give no empty segment. *)
Theorem parse_separator_tolerance :
  ParseHL7Message (str "MSH|a|b" ++ [CR] ++ [CR] ++ str "PID|c" ++ [CR]) =
  Done (Ok {| Segments :=
    [ {| Type_ := str "MSH"; Fields := [str "a"; str "b"] |};
      {| Type_ := str "PID"; Fields := [str "c"] |} ] |}).
Proof. vm_compute. reflexivity. Qed.

(** Claim C7.  ["MSH|a"], with no carriage return at its end, parses to the
    one segment [MSH] with field [a]; with a carriage return at its end it
    parses to the same; in ["MSH|a\rPID|c"] what follows the last carriage
    return is one more segment; and for every text a carriage return added
    at the end changes nothing in what the parser returns. *)
Theorem parse_missing_terminal_separator :
  ParseHL7Message (str "MSH|a") =
    Done (Ok {| Segments := [ {| Type_ := str "MSH"; Fields := [str "a"] |} ] |}) /\
  ParseHL7Message (str "MSH|a" ++ [CR]) =
    Done (Ok {| Segments := [ {| Type_ := str "MSH"; Fields := [str "a"] |} ] |}) /\
  ParseHL7Message (str "MSH|a" ++ [CR] ++ str "PID|c") =
    Done (Ok {| Segments := [ {| Type_ := str "MSH"; Fields := [str "a"] |};
                              {| Type_ := str "PID"; Fields := [str "c"] |} ] |}) /\
  (forall messageStr,
     ParseHL7Message (messageStr ++ [CR]) = ParseHL7Message messageStr).
Proof.
  split; [vm_compute; reflexivity|]. split; [vm_compute; reflexivity|].
  split; [vm_compute; reflexivity|].
  intros messageStr. rewrite !ParseHL7Message_chunks.
  destruct (chunks_snoc_CR messageStr) as [-> | ->]; [reflexivity|].
  rewrite parseChunks_snoc_empty. reflexivity.
Qed.

(** Claim C8.  ["ABC"], a chunk without a bar, parses to one segment of type
    [ABC] with no fields. *)
Theorem parse_type_only :
  ParseHL7Message (str "ABC") =
  Done (Ok {| Segments := [ {| Type_ := str "ABC"; Fields := [] |} ] |}).
Proof. vm_compute. reflexivity. Qed.

(** Claim C9.  The message built by [AddSegment] with [MSH], [^~\&], [APP],
    [FAC] and then [PID], the empty field, [123], two empty fields and
    [Doe^John] is generated and parsed back to itself: the same two segments
    with the same types and fields, and field 4 of [PID] is [Doe^John] with
    its caret untouched. *)
Theorem end_to_end_scenario :
  exists msh pid,
    Segments scenarioMessage = [msh; pid] /\
    ParseHL7Message (GenerateMessage scenarioMessage) =
      Done (Ok {| Segments := [msh; pid] |}) /\
    Type_ msh = str "MSH" /\
    Fields msh = [str "^~\&"; str "APP"; str "FAC"] /\
    Type_ pid = str "PID" /\
    Fields pid = [str ""; str "123"; str ""; str ""; str "Doe^John"] /\
    nth_error (Fields pid) 4 = Some (str "Doe^John").
Proof.
  do 2 eexists. split; [reflexivity|].
  split; [vm_compute; reflexivity|]. repeat split.
Qed.

(** Claim C10.  Every segment of a message that [ParseHL7Message] returns has
    a non-empty type or a non-empty field list: the parser never makes a
    segment with the empty type and no fields. *)
Theorem parsed_segments_have_content (messageStr : gostring) (message : HL7Message) :
  ParseHL7Message messageStr = Done (Ok message) ->
  Forall (fun segment => Type_ segment <> [] \/ Fields segment <> [])
         (Segments message).
Proof.
  rewrite ParseHL7Message_chunks. intros H.
  destruct (parseChunks_cases (chunks messageStr) NewHL7Message)
    as [(sg & E & _ & S)|[E _]]; rewrite E in H; [|discriminate].
  inversion H; subst message. cbn [Segments NewHL7Message app]. subst sg.
  apply Forall_forall. intros g Hin. apply in_map_iff in Hin.
  destruct Hin as (c & <- & Hc). apply filter_In in Hc.
  apply hasContent_spec, toSegment_hasContent. tauto.
Qed.

(** Claim C10 at the text ["|\r\rABC"]: a segment with the empty type and one
    empty field, and a segment with a type and no field. *)
Lemma parsed_segments_have_content_witness :
  ParseHL7Message (str "|" ++ [CR] ++ [CR] ++ str "ABC") =
    Done (Ok {| Segments := [ {| Type_ := []; Fields := [[]] |};
                              {| Type_ := str "ABC"; Fields := [] |} ] |}) /\
  Forall (fun segment => Type_ segment <> [] \/ Fields segment <> [])
    (Segments {| Segments := [ {| Type_ := []; Fields := [[]] |};
                               {| Type_ := str "ABC"; Fields := [] |} ] |}).
Proof.
  assert (H : ParseHL7Message (str "|" ++ [CR] ++ [CR] ++ str "ABC") =
    Done (Ok {| Segments := [ {| Type_ := []; Fields := [[]] |};
                              {| Type_ := str "ABC"; Fields := [] |} ] |}))
    by (vm_compute; reflexivity).
  split; [exact H|].
  exact (parsed_segments_have_content _ _ H).
Defined.

(** ** The token limit of the scanner

    The bound on the lines in claims C1 and C2 cannot be dropped: a line of
    [MaxScanTokenSize] bytes or more makes the scanner give up, and
    [ParseHL7Message] returns its error instead of a message. *)

Lemma parseChunks_long (cs : list gostring) (message : HL7Message) :
  Exists (fun c => bufio.MaxScanTokenSize <= length c) cs ->
  parseChunks cs message = Err ErrTooLong.
Proof.
  intros X. destruct (parseChunks_cases cs message) as [(sg & _ & F & _)|[E _]];
    [|exact E].
  apply Exists_exists in X. destruct X as (c & Hin & Hc).
  rewrite Forall_forall in F. specialize (F c Hin). lia.
Qed.

Lemma long_line_rejected (m : HL7Message) :
  plainMessage m = true ->
  existsb (fun segment => negb (shortLine segment)) (Segments m) = true ->
  ParseHL7Message (GenerateMessage m) = Done (Err ErrTooLong).
Proof.
  intros Hp Hl.
  rewrite ParseHL7Message_chunks, GenerateMessage_serialize, serialize_lines.
  rewrite chunks_lines.
  - rewrite parseChunks_long; [reflexivity|].
    apply existsb_exists in Hl. destruct Hl as (g & Hin & Hg).
    apply Exists_exists. exists (segmentLine g). split.
    + apply in_map. assumption.
    + apply negb_true_iff in Hg. apply Nat.ltb_ge. exact Hg.
  - apply Forall_map, Forall_forall. intros g Hin.
    unfold plainMessage in Hp. rewrite forallb_forall in Hp.
    apply segmentLine_noCR. exact (Hp g Hin).
Qed.

Lemma plain_repeat (n : nat) : plain (repeat "A"%char n) = true.
Proof. induction n as [|n IH]; [reflexivity | exact IH]. Qed.

(** A single segment whose type is [MaxScanTokenSize] letters. *)
Lemma long_type_rejected :
  ParseHL7Message
    (GenerateMessage
       (AddSegment NewHL7Message (repeat "A"%char bufio.MaxScanTokenSize) [])) =
  Done (Err ErrTooLong).
Proof.
  apply long_line_rejected.
  - unfold plainMessage, plainSegment. cbn [AddSegment NewHL7Message Segments
      app forallb Type_ Fields]. rewrite plain_repeat. reflexivity.
  - unfold shortLine, segmentLine. cbn [AddSegment NewHL7Message Segments
      app existsb Type_ Fields map concat].
    rewrite app_nil_r, repeat_length, Nat.ltb_irrefl. reflexivity.
Qed.

(** ** Building and generating messages *)

(** [AddSegment] keeps the segments in the order of the calls. *)
Theorem addSegments_order (m : HL7Message) (calls : list (gostring * list gostring)) :
  Segments (addSegments m calls) =
  Segments m ++ map (fun call => {| Type_ := fst call; Fields := snd call |}) calls.
Proof.
  unfold addSegments. revert m. induction calls as [|call calls IH]; intros m.
  - simpl. symmetry. apply app_nil_r.
  - cbn [fold_left map]. rewrite IH. cbn [AddSegment Segments].
    rewrite <- app_assoc. reflexivity.
Qed.

Lemma serialize_app (a b : list Segment) :
  serialize {| Segments := a ++ b |} =
  serialize {| Segments := a |} ++ serialize {| Segments := b |}.
Proof. unfold serialize. cbn [Segments]. rewrite map_app. apply concat_app. Qed.

(** The text of a message with one more segment is the text of the message
    followed by the line of the new segment and a carriage return; the text
    of two lists of segments put together is the two texts put together. *)
Theorem GenerateMessage_AddSegment (m : HL7Message) (segmentType : gostring)
    (fields : list gostring) (a b : list Segment) :
  GenerateMessage (AddSegment m segmentType fields) =
    GenerateMessage m ++ segmentType ++
    concat (map (fun field => FieldSeparator ++ field) fields) ++ SegmentSeparator /\
  GenerateMessage {| Segments := a ++ b |} =
    GenerateMessage {| Segments := a |} ++ GenerateMessage {| Segments := b |}.
Proof.
  rewrite !GenerateMessage_serialize. split; [|apply serialize_app].
  unfold AddSegment. rewrite serialize_app.
  replace {| Segments := Segments m |} with m by (destruct m; reflexivity).
  apply f_equal. unfold serialize, segmentLine.
  cbn [Segments map concat Type_ Fields].
  rewrite app_nil_r, <- app_assoc. reflexivity.
Qed.

(** The text of a message is empty exactly when the message has no segment,
    and a text that is not empty ends in a carriage return. *)
Theorem GenerateMessage_terminated (m : HL7Message) :
  (GenerateMessage m = [] <-> Segments m = []) /\
  (GenerateMessage m = [] \/ exists text, GenerateMessage m = text ++ [CR]).
Proof.
  rewrite GenerateMessage_serialize. split.
  - unfold serialize. destruct (Segments m) as [|g segments]; [tauto|].
    cbn [map concat]. split; [|discriminate]. intros E.
    apply app_eq_nil in E. destruct E as [E _].
    apply app_eq_nil in E. destruct E as [_ E]. discriminate E.
  - pose proof (serialize_last m) as L.
    destruct (serialize m) as [|x text] eqn:E; [left; reflexivity|]. right.
    assert (NE : x :: text <> []) by discriminate.
    destruct (exists_last NE) as (front & y & Ey). rewrite Ey in L |- *.
    rewrite last_last in L. subst y. exists front. reflexivity.
Qed.

(** ** More on what the parser returns *)

Lemma chunks_nil (s : gostring) : chunks s = [] -> s = [].
Proof.
  destruct s as [|d s]; [reflexivity|]. simpl.
  destruct (Ascii.eqb d CR); [discriminate|].
  destruct (chunks s); discriminate.
Qed.

Lemma chunks_app_CR (a b : gostring) :
  chunks (a ++ CR :: b) = chunks a ++ chunks b \/
  chunks (a ++ CR :: b) = chunks a ++ [] :: chunks b.
Proof.
  induction a as [|d a IH]; [right; reflexivity|].
  cbn [app chunks]. destruct (Ascii.eqb d CR).
  - destruct IH as [->| ->]; [left | right]; reflexivity.
  - destruct (chunks a) as [|h t] eqn:C.
    + apply chunks_nil in C. subst a. left. reflexivity.
    + destruct IH as [->| ->]; [left | right]; reflexivity.
Qed.

Lemma parseChunks_app (cs1 cs2 : list gostring) (message : HL7Message) :
  parseChunks (cs1 ++ cs2) message =
  match parseChunks cs1 message with
  | Ok message' => parseChunks cs2 message'
  | Err e => Err e
  end.
Proof.
  revert message. induction cs1 as [|c cs1 IH]; intros message; [reflexivity|].
  cbn [app parseChunks]. destruct (length c <? bufio.MaxScanTokenSize);
    [|reflexivity].
  destruct (length c =? 0); apply IH.
Qed.

Lemma parseChunks_from (cs : list gostring) (message : HL7Message) :
  parseChunks cs message =
  match parseChunks cs NewHL7Message with
  | Ok parsed => Ok {| Segments := Segments message ++ Segments parsed |}
  | Err e => Err e
  end.
Proof.
  destruct (parseChunks_cases cs message) as [(sg & E & F & S)|[E X]].
  - rewrite E, (parseChunks_short _ NewHL7Message F). subst sg. reflexivity.
  - rewrite E, (parseChunks_long cs NewHL7Message X). reflexivity.
Qed.

Lemma parseChunks_skip_empty (cs : list gostring) (message : HL7Message) :
  parseChunks ([] :: cs) message = parseChunks cs message.
Proof.
  cbn [parseChunks length Nat.eqb].
  destruct (Nat.ltb_spec 0 bufio.MaxScanTokenSize) as [_|L]; [reflexivity|].
  pose proof MaxScanTokenSize_pos. lia.
Qed.

Lemma parse_app_CR (a b : gostring) :
  ParseHL7Message (a ++ [CR] ++ b) =
  match ParseHL7Message a with
  | Done (Ok first) =>
      match ParseHL7Message b with
      | Done (Ok second) =>
          Done (Ok {| Segments := Segments first ++ Segments second |})
      | other => other
      end
  | other => other
  end.
Proof.
  rewrite !ParseHL7Message_chunks. cbn [app].
  assert (E : parseChunks (chunks (a ++ CR :: b)) NewHL7Message =
              parseChunks (chunks a ++ chunks b) NewHL7Message).
  { destruct (chunks_app_CR a b) as [->| ->]; [reflexivity|].
    rewrite !parseChunks_app.
    destruct (parseChunks (chunks a) NewHL7Message); [|reflexivity].
    apply parseChunks_skip_empty. }
  rewrite E, parseChunks_app.
  destruct (parseChunks (chunks a) NewHL7Message) as [first|e]; [|reflexivity].
  rewrite parseChunks_from.
  destruct (parseChunks (chunks b) NewHL7Message); reflexivity.
Qed.

(** Parsing a text cut at a carriage return is parsing the two parts: the
    segments of the first part followed by those of the second, or the error
    of the first part that fails. *)
Theorem ParseHL7Message_app (a b : gostring) :
  ParseHL7Message (a ++ [CR] ++ b) =
  match ParseHL7Message a with
  | Done (Ok first) =>
      match ParseHL7Message b with
      | Done (Ok second) =>
          Done (Ok {| Segments := Segments first ++ Segments second |})
      | other => other
      end
  | other => other
  end.
Proof. apply parse_app_CR. Qed.

(** Carriage returns that end no line are ignored: one at the start of the
    text, and the second of two in a row. *)
Theorem ParseHL7Message_extra_separators (a b : gostring) :
  ParseHL7Message (CR :: b) = ParseHL7Message b /\
  ParseHL7Message (a ++ [CR; CR] ++ b) = ParseHL7Message (a ++ [CR] ++ b).
Proof.
  assert (L : forall t, ParseHL7Message (CR :: t) = ParseHL7Message t).
  { intros t. rewrite !ParseHL7Message_chunks. cbn [chunks].
    rewrite Ascii.eqb_refl, parseChunks_skip_empty. reflexivity. }
  split; [apply L|].
  change (a ++ [CR; CR] ++ b) with (a ++ [CR] ++ (CR :: b)).
  rewrite !parse_app_CR, L. reflexivity.
Qed.

Lemma ParseHL7Message_Ok (messageStr : gostring) (message : HL7Message) :
  ParseHL7Message messageStr = Done (Ok message) ->
  message = {| Segments := map toSegment (filter nonEmpty (chunks messageStr)) |} /\
  Forall (fun c => length c < bufio.MaxScanTokenSize) (chunks messageStr).
Proof.
  rewrite ParseHL7Message_chunks. intros H.
  destruct (parseChunks_cases (chunks messageStr) NewHL7Message)
    as [(sg & E & F & S)|[E _]]; rewrite E in H; [|discriminate].
  inversion H. subst sg. split; [reflexivity | assumption].
Qed.

Lemma splitOn_count (c : ascii) (s : gostring) :
  length (splitOn c s) = S (count_occ ascii_dec s c).
Proof.
  induction s as [|d s IH]; [reflexivity|]. cbn [splitOn].
  destruct (Ascii.eqb_spec d c) as [->|N].
  - rewrite count_occ_cons_eq by reflexivity. simpl. rewrite IH. reflexivity.
  - rewrite count_occ_cons_neq by assumption. rewrite <- IH.
    pose proof (splitOn_length c s) as L.
    destruct (splitOn c s); [simpl in L; lia | reflexivity].
Qed.

Lemma chunks_count (c : ascii) (s : gostring) :
  c <> CR ->
  list_sum (map (fun chunk => count_occ ascii_dec chunk c) (chunks s)) =
  count_occ ascii_dec s c.
Proof.
  intros NC. induction s as [|d s IH]; [reflexivity|]. cbn [chunks].
  destruct (Ascii.eqb_spec d CR) as [->|N].
  - rewrite count_occ_cons_neq by congruence. cbn [map list_sum fold_right count_occ].
    exact IH.
  - destruct (chunks s) as [|h t] eqn:C.
    + apply chunks_nil in C. subst s. cbn [map list_sum fold_right]. lia.
    + cbn [map list_sum fold_right] in *. destruct (ascii_dec d c) as [->|Nd].
      * rewrite !count_occ_cons_eq by reflexivity. lia.
      * rewrite !count_occ_cons_neq by assumption. lia.
Qed.

Lemma filter_nonEmpty_count (c : ascii) (cs : list gostring) :
  list_sum (map (fun chunk => count_occ ascii_dec chunk c) (filter nonEmpty cs)) =
  list_sum (map (fun chunk => count_occ ascii_dec chunk c) cs).
Proof.
  unfold list_sum. induction cs as [|h cs IH]; [reflexivity|]. cbn [filter].
  destruct h as [|x h]; cbn [nonEmpty length Nat.eqb negb map fold_right].
  - exact IH.
  - rewrite IH. reflexivity.
Qed.

(** No field is dropped and none is made up: the fields of a parsed message
    are as many as the vertical bars of the text. *)
Theorem parsed_field_count (messageStr : gostring) (message : HL7Message) :
  ParseHL7Message messageStr = Done (Ok message) ->
  fieldCount message = count_occ ascii_dec messageStr "|"%char.
Proof.
  intros H. apply ParseHL7Message_Ok in H. destruct H as [-> _].
  unfold fieldCount. cbn [Segments]. rewrite map_map.
  rewrite <- (chunks_count "|"%char messageStr) by discriminate.
  rewrite <- filter_nonEmpty_count. f_equal. apply map_ext. intros chunk.
  unfold toSegment. cbn [Fields]. rewrite length_skipn, splitOn_count. lia.
Qed.

(** The fields of ["MSH||a|"] are three, two of them empty. *)
Lemma parsed_field_count_witness :
  ParseHL7Message (str "MSH||a|") =
    Done (Ok {| Segments :=
      [ {| Type_ := str "MSH"; Fields := [str ""; str "a"; str ""] |} ] |}) /\
  fieldCount {| Segments :=
      [ {| Type_ := str "MSH"; Fields := [str ""; str "a"; str ""] |} ] |} =
  count_occ ascii_dec (str "MSH||a|") "|"%char.
Proof.
  assert (H : ParseHL7Message (str "MSH||a|") =
    Done (Ok {| Segments :=
      [ {| Type_ := str "MSH"; Fields := [str ""; str "a"; str ""] |} ] |}))
    by (vm_compute; reflexivity).
  split; [exact H|]. exact (parsed_field_count _ _ H).
Defined.

Lemma chunks_noCR (s : gostring) : Forall (fun c => ~ In CR c) (chunks s).
Proof.
  induction s as [|d s IH]; [constructor|]. cbn [chunks].
  destruct (Ascii.eqb_spec d CR) as [->|N].
  - constructor; [intros [] | exact IH].
  - destruct (chunks s) as [|h t].
    + constructor; [|constructor]. intros [E|[]]. congruence.
    + inversion IH as [|? ? Hh Ht]; subst. constructor; [|exact Ht].
      intros [E|I]; [congruence | contradiction].
Qed.

Lemma splitOn_pieces (c : ascii) (s : gostring) :
  Forall (fun p => ~ In c p /\ forall x, In x p -> In x s) (splitOn c s).
Proof.
  induction s as [|d s IH]; cbn [splitOn].
  - constructor; [|constructor]. split; [intros [] | intros x []].
  - assert (W : Forall (fun p => ~ In c p /\ forall x, In x p -> In x (d :: s))
                       (splitOn c s)).
    { eapply Forall_impl; [|exact IH]. intros p [A B]. split; [exact A|].
      intros x I. right. apply B. exact I. }
    destruct (Ascii.eqb_spec d c) as [->|N].
    + constructor; [|exact W]. split; [intros [] | intros x []].
    + destruct (splitOn c s) as [|h t].
      * constructor; [|constructor]. split.
        -- intros [E|[]]. congruence.
        -- intros x [E|[]]. left. exact E.
      * inversion W as [|? ? [A B] Wt]; subst. constructor; [|exact Wt]. split.
        -- intros [E|I]; [congruence | contradiction].
        -- intros x [E|I]; [left; exact E | apply B; exact I].
Qed.

Lemma toSegment_plainSegment (chunk : gostring) :
  ~ In CR chunk -> plainSegment (toSegment chunk) = true.
Proof.
  intros NCR. unfold plainSegment, toSegment.
  pose proof (splitOn_pieces "|"%char chunk) as P.
  assert (Q : Forall (fun p => plain p = true) (splitOn "|"%char chunk)).
  { eapply Forall_impl; [|exact P]. intros p [A B]. apply plain_iff.
    split; [|exact A]. intros I. apply NCR, B, I. }
  destruct (splitOn "|"%char chunk) as [|ty fs]; [reflexivity|].
  inversion Q as [|? ? Hty Hfs]; subst. cbn [nth skipn Type_ Fields].
  rewrite Hty. apply forallb_forall. rewrite Forall_forall in Hfs. exact Hfs.
Qed.

(** What the parser returns can be generated and parsed again without loss:
    no type and no field of a parsed message holds a carriage return or a
    vertical bar, and the line of every segment is shorter than the largest
    token. *)
Theorem parsed_message_plain (messageStr : gostring) (message : HL7Message) :
  ParseHL7Message messageStr = Done (Ok message) ->
  plainMessage message = true /\
  forallb shortLine (Segments message) = true.
Proof.
  intros H. apply ParseHL7Message_Ok in H. destruct H as [-> F].
  unfold plainMessage. cbn [Segments]. split; apply forallb_forall;
    intros g Hin; apply in_map_iff in Hin; destruct Hin as (c & <- & Hc);
    apply filter_In in Hc; destruct Hc as [Hc _].
  - apply toSegment_plainSegment.
    pose proof (chunks_noCR messageStr) as N. rewrite Forall_forall in N.
    apply N. exact Hc.
  - unfold shortLine. rewrite segmentLine_toSegment. apply Nat.ltb_lt.
    rewrite Forall_forall in F. apply F. exact Hc.
Qed.

Lemma parsed_message_plain_witness :
  ParseHL7Message (str "MSH|a^b" ++ [CR] ++ [CR] ++ str "PID||c") =
    Done (Ok {| Segments :=
      [ {| Type_ := str "MSH"; Fields := [str "a^b"] |};
        {| Type_ := str "PID"; Fields := [str ""; str "c"] |} ] |}) /\
  plainMessage {| Segments :=
      [ {| Type_ := str "MSH"; Fields := [str "a^b"] |};
        {| Type_ := str "PID"; Fields := [str ""; str "c"] |} ] |} = true /\
  forallb shortLine
      [ {| Type_ := str "MSH"; Fields := [str "a^b"] |};
        {| Type_ := str "PID"; Fields := [str ""; str "c"] |} ] = true.
Proof.
  assert (H : ParseHL7Message (str "MSH|a^b" ++ [CR] ++ [CR] ++ str "PID||c") =
    Done (Ok {| Segments :=
      [ {| Type_ := str "MSH"; Fields := [str "a^b"] |};
        {| Type_ := str "PID"; Fields := [str ""; str "c"] |} ] |}))
    by (vm_compute; reflexivity).
  split; [exact H|]. exact (parsed_message_plain _ _ H).
Defined.

Lemma filter_filter_same {A : Type} (f : A -> bool) (l : list A) :
  filter f (filter f l) = filter f l.
Proof.
  induction l as [|a l IH]; [reflexivity|]. cbn [filter].
  destruct (f a) eqn:E; [|exact IH]. cbn [filter]. rewrite E, IH. reflexivity.
Qed.

Lemma serialize_toSegment (cs : list gostring) :
  serialize {| Segments := map toSegment cs |} =
  concat (map (fun c => c ++ [CR]) cs).
Proof.
  unfold serialize. cbn [Segments]. rewrite map_map. f_equal.
  apply map_ext. intros c. rewrite segmentLine_toSegment. reflexivity.
Qed.

(** A parsed message is a fixed point: generating its text and parsing that
    text returns the same message. *)
Theorem parse_generate_parse (messageStr : gostring) (message : HL7Message) :
  ParseHL7Message messageStr = Done (Ok message) ->
  ParseHL7Message (GenerateMessage message) = Done (Ok message).
Proof.
  intros H. apply ParseHL7Message_Ok in H. destruct H as [-> F].
  rewrite ParseHL7Message_chunks, GenerateMessage_serialize, serialize_toSegment.
  rewrite chunks_lines.
  - rewrite parseChunks_short, filter_filter_same; [reflexivity|].
    apply Forall_forall. intros c Hc. apply filter_In in Hc.
    rewrite Forall_forall in F. apply F. tauto.
  - apply Forall_forall. intros c Hc. apply filter_In in Hc.
    pose proof (chunks_noCR messageStr) as N. rewrite Forall_forall in N.
    apply N. tauto.
Qed.

Lemma parse_generate_parse_witness :
  ParseHL7Message (str "MSH|a^b" ++ [CR] ++ [CR] ++ str "PID||c") =
    Done (Ok {| Segments :=
      [ {| Type_ := str "MSH"; Fields := [str "a^b"] |};
        {| Type_ := str "PID"; Fields := [str ""; str "c"] |} ] |}) /\
  ParseHL7Message (GenerateMessage {| Segments :=
      [ {| Type_ := str "MSH"; Fields := [str "a^b"] |};
        {| Type_ := str "PID"; Fields := [str ""; str "c"] |} ] |}) =
    Done (Ok {| Segments :=
      [ {| Type_ := str "MSH"; Fields := [str "a^b"] |};
        {| Type_ := str "PID"; Fields := [str ""; str "c"] |} ] |}).
Proof.
  assert (H : ParseHL7Message (str "MSH|a^b" ++ [CR] ++ [CR] ++ str "PID||c") =
    Done (Ok {| Segments :=
      [ {| Type_ := str "MSH"; Fields := [str "a^b"] |};
        {| Type_ := str "PID"; Fields := [str ""; str "c"] |} ] |}))
    by (vm_compute; reflexivity).
  split; [exact H|]. exact (parse_generate_parse _ _ H).
Defined.

Lemma canonical_chunks (s : gostring) :
  forall lineLen : nat,
    canonical lineLen s = true ->
    (s = [] /\ lineLen = 0) \/
    (exists h t,
       chunks s = h :: t /\ 0 < lineLen + length h /\
       lineLen + length h < bufio.MaxScanTokenSize /\
       forallb segmentChunk t = true /\ last s CR = CR).
Proof.
  induction s as [|d s IH]; intros n H.
  - left. simpl in H. apply Nat.eqb_eq in H. auto.
  - right. cbn [canonical chunks] in *.
    destruct (Ascii.eqb_spec d CR) as [->|N].
    + apply andb_prop in H. destruct H as [H C]. apply andb_prop in H.
      destruct H as [P L]. apply Nat.ltb_lt in P, L.
      exists [], (chunks s). cbn [length]. rewrite Nat.add_0_r.
      split; [reflexivity|]. split; [assumption|]. split; [assumption|].
      destruct (IH 0 C) as [[-> _]|(h & t & E & Hp & Hl & Ht & Hlast)].
      * split; reflexivity.
      * rewrite E. cbn [forallb]. unfold segmentChunk at 1, nonEmpty.
        replace (length h =? 0) with false by (symmetry; apply Nat.eqb_neq; lia).
        replace (length h <? bufio.MaxScanTokenSize) with true
          by (symmetry; apply Nat.ltb_lt; lia).
        split; [exact Ht|]. destruct s; [discriminate E | exact Hlast].
    + destruct (IH (S n) H) as [[_ Z]|(h & t & E & Hp & Hl & Ht & Hlast)];
        [discriminate Z|].
      rewrite E. exists (d :: h), t. cbn [length].
      split; [reflexivity|]. split; [lia|]. split; [lia|].
      split; [exact Ht|]. destruct s; [discriminate E | exact Hlast].
Qed.

(** Texts in canonical form come back: when every line of the text is
    non-empty, shorter than the largest token and ended by a carriage return,
    the text parses, and the text generated from the parsed message is the
    text itself. *)
Theorem generate_parse_text (messageStr : gostring) :
  canonical 0 messageStr = true ->
  exists message,
    ParseHL7Message messageStr = Done (Ok message) /\
    GenerateMessage message = messageStr.
Proof.
  intros H. rewrite ParseHL7Message_chunks.
  assert (A : forallb segmentChunk (chunks messageStr) = true /\
              last messageStr CR = CR).
  { destruct (canonical_chunks _ _ H) as [[-> _]|(h & t & E & Hp & Hl & Ht & Hlast)].
    - split; reflexivity.
    - rewrite E. cbn [forallb]. unfold segmentChunk at 1, nonEmpty.
      replace (length h =? 0) with false by (symmetry; apply Nat.eqb_neq; lia).
      replace (length h <? bufio.MaxScanTokenSize) with true
        by (symmetry; apply Nat.ltb_lt; lia).
      split; assumption. }
  destruct A as [SC L]. rewrite forallb_forall in SC.
  rewrite parseChunks_short.
  - rewrite filter_all.
    + eexists. split; [reflexivity|]. cbn [NewHL7Message Segments app].
      rewrite GenerateMessage_serialize, serialize_toSegment.
      apply chunks_concat. exact L.
    + apply forallb_forall. intros c Hc. specialize (SC c Hc).
      apply andb_prop in SC. tauto.
  - apply Forall_forall. intros c Hc. specialize (SC c Hc).
    apply andb_prop in SC. apply Nat.ltb_lt. tauto.
Qed.

Lemma generate_parse_text_witness :
  canonical 0 (str "MSH|a||b" ++ [CR] ++ str "PID" ++ [CR]) = true /\
  exists message,
    ParseHL7Message (str "MSH|a||b" ++ [CR] ++ str "PID" ++ [CR]) =
      Done (Ok message) /\
    GenerateMessage message = str "MSH|a||b" ++ [CR] ++ str "PID" ++ [CR].
Proof.
  assert (H : canonical 0 (str "MSH|a||b" ++ [CR] ++ str "PID" ++ [CR]) = true)
    by (vm_compute; reflexivity).
  split; [exact H|]. exact (generate_parse_text _ H).
Defined.

Lemma chunks_length (s : gostring) :
  Forall (fun c => length c <= length s) (chunks s).
Proof.
  induction s as [|d s IH]; [constructor|]. cbn [chunks].
  assert (W : Forall (fun c => length c <= length (d :: s)) (chunks s)).
  { eapply Forall_impl; [|exact IH]. intros c L. simpl in *. lia. }
  destruct (Ascii.eqb d CR).
  - constructor; [simpl; lia | exact W].
  - destruct (chunks s) as [|h t].
    + constructor; [simpl; lia | constructor].
    + inversion IH as [|? ? Hh Ht]; subst. inversion W; subst.
      constructor; [simpl; lia | assumption].
Qed.

(** A text shorter than the largest token of the scanner always parses:
    below 65536 bytes [ParseHL7Message] returns a message, whatever the
    bytes. *)
Theorem short_text_parses (messageStr : gostring) :
  length messageStr < bufio.MaxScanTokenSize ->
  exists message, ParseHL7Message messageStr = Done (Ok message).
Proof.
  intros L. rewrite ParseHL7Message_chunks, parseChunks_short.
  - eexists. reflexivity.
  - eapply Forall_impl; [|apply chunks_length]. intros c Hc. simpl in Hc. lia.
Qed.

Lemma short_text_parses_witness :
  length (str "|||" ++ [CR] ++ str "^~\&") < bufio.MaxScanTokenSize /\
  exists message,
    ParseHL7Message (str "|||" ++ [CR] ++ str "^~\&") = Done (Ok message).
Proof.
  assert (L : length (str "|||" ++ [CR] ++ str "^~\&") < bufio.MaxScanTokenSize)
    by (apply Nat.ltb_lt; vm_compute; reflexivity).
  split; [exact L|]. exact (short_text_parses _ L).
Defined.

(** A text whose first 65536 bytes hold no carriage return does not parse:
    the scanner gives up with [ErrTooLong], and no message is returned, also
    when the rest of the text is well formed. *)
Theorem long_first_line_fails (messageStr : gostring) :
  bufio.MaxScanTokenSize <= length messageStr ->
  ~ In CR (firstn bufio.MaxScanTokenSize messageStr) ->
  ParseHL7Message messageStr = Done (Err ErrTooLong).
Proof.
  intros L NI. rewrite ParseHL7Message_chunks.
  rewrite parseChunks_long; [reflexivity|].
  pose proof MaxScanTokenSize_pos as P.
  rewrite chunks_break by (intros E; rewrite E in L; simpl in L; lia).
  constructor.
  rewrite <- (firstn_skipn bufio.MaxScanTokenSize messageStr).
  rewrite (break_app_None CR _ _ _ (break_notin CR _ NI)). cbn [fst].
  rewrite length_app, length_firstn. lia.
Qed.

(** 65536 letters, then a carriage return and a well-formed segment. *)
Lemma long_first_line_fails_witness :
  bufio.MaxScanTokenSize <=
    length (repeat "A"%char bufio.MaxScanTokenSize ++ [CR] ++ str "PID|1") /\
  ~ In CR (firstn bufio.MaxScanTokenSize
             (repeat "A"%char bufio.MaxScanTokenSize ++ [CR] ++ str "PID|1")) /\
  ParseHL7Message
    (repeat "A"%char bufio.MaxScanTokenSize ++ [CR] ++ str "PID|1") =
  Done (Err ErrTooLong).
Proof.
  assert (L : bufio.MaxScanTokenSize <=
    length (repeat "A"%char bufio.MaxScanTokenSize ++ [CR] ++ str "PID|1"))
    by (rewrite length_app, repeat_length; lia).
  assert (N : ~ In CR (firstn bufio.MaxScanTokenSize
             (repeat "A"%char bufio.MaxScanTokenSize ++ [CR] ++ str "PID|1"))).
  { rewrite firstn_app, repeat_length, Nat.sub_diag. cbn [firstn].
    rewrite app_nil_r, firstn_all2 by (rewrite repeat_length; apply le_n).
    intros I. apply repeat_spec in I. discriminate I. }
  split; [exact L|]. split; [exact N|]. exact (long_first_line_fails _ L N).
Defined.

(** The split function keeps the contract of the scanner: it never advances
    beyond the data; a token is a prefix of the data without a carriage
    return and always comes with an advance of at least one byte, so the
    scanner cannot panic over tokens that do not advance; and at the end of
    the input no byte is left behind. *)
Theorem splitSegments_contract (data : gostring) (atEOF : bool) :
  fst (splitSegments data atEOF) <= length data /\
  match snd (splitSegments data atEOF) with
  | Some token =>
      0 < fst (splitSegments data atEOF) /\
      token = firstn (length token) data /\ ~ In CR token /\
      (data = token ++ CR :: skipn (fst (splitSegments data atEOF)) data \/
       (atEOF = true /\ data = token /\
        fst (splitSegments data atEOF) = length data))
  | None =>
      fst (splitSegments data atEOF) = 0 /\ ~ In CR data /\
      (atEOF = false \/ data = [])
  end.
Proof.
  rewrite splitSegments_break.
  destruct (break CR data) as [h [t|]] eqn:B.
  - destruct (break_Some _ _ _ _ B) as [E NI].
    destruct (break_firstn_skipn _ _ _ _ B) as [F K]. cbn [fst snd].
    split; [rewrite E, length_app; simpl; lia|].
    split; [lia|]. split; [symmetry; exact F|]. split; [exact NI|].
    left. rewrite K. exact E.
  - destruct (break_None _ _ _ B) as [_ NI].
    destruct atEOF; cbn [andb].
    + destruct data as [|x data]; cbn [length Nat.eqb negb fst snd].
      * split; [lia|]. split; [reflexivity|]. split; [exact NI | right; reflexivity].
      * split; [lia|]. split; [lia|].
        split; [symmetry; apply (firstn_all (x :: data))|].
        split; [exact NI|]. right. auto.
    + cbn [fst snd]. split; [lia|]. split; [reflexivity|]. split; [exact NI | left; reflexivity].
Qed.

(** ** The sample message *)

(** The round trip of plain messages, in the form the sample message and the
    handlers use. *)
Lemma plain_message_round_trip (m : HL7Message) :
  plainMessage m = true ->
  forallb hasContent (Segments m) = true ->
  forallb shortLine (Segments m) = true ->
  ParseHL7Message (GenerateMessage m) = Done (Ok m).
Proof.
  intros Hp Hc Hs.
  rewrite ParseHL7Message_chunks, GenerateMessage_serialize, serialize_lines.
  rewrite chunks_lines.
  - rewrite parseChunks_short.
    + rewrite (lines_back _ Hp Hc). destruct m; reflexivity.
    + apply Forall_map, Forall_forall. intros g Hin.
      rewrite forallb_forall in Hs. apply Nat.ltb_lt. exact (Hs g Hin).
  - apply Forall_map, Forall_forall. intros g Hin.
    unfold plainMessage in Hp. rewrite forallb_forall in Hp.
    apply segmentLine_noCR. exact (Hp g Hin).
Qed.

Lemma digits_plain (s : gostring) : forallb isDigit s = true -> plain s = true.
Proof.
  intros D. rewrite forallb_forall in D. apply plain_iff.
  split; intros I; specialize (D _ I); discriminate D.
Qed.

Lemma GenerateSampleMessage_round_trip_plain (currentTime : gostring) :
  forallb isDigit currentTime = true ->
  length currentTime = 14 ->
  ParseHL7Message (GenerateMessage (GenerateSampleMessage currentTime)) =
  Done (Ok (GenerateSampleMessage currentTime)).
Proof.
  intros D L. apply digits_plain in D. apply plain_message_round_trip.
  - unfold plainMessage, plainSegment, GenerateSampleMessage.
    cbn [AddSegment NewHL7Message Segments app forallb Type_ Fields].
    rewrite D. vm_compute. reflexivity.
  - reflexivity.
  - unfold shortLine, segmentLine, GenerateSampleMessage.
    cbn [AddSegment NewHL7Message Segments app forallb Type_ Fields map concat].
    apply andb_true_intro. split; [|vm_compute; reflexivity].
    apply Nat.ltb_lt. rewrite !length_app, L.
    assert (B : 1024 <= bufio.MaxScanTokenSize)
      by (unfold bufio.MaxScanTokenSize; lia).
    simpl. lia.
Qed.

(** The sample message survives the round trip at every time of day: for
    every time stamp of fourteen digits, generating the text of the sample
    message and parsing it returns the sample message. *)
Theorem GenerateSampleMessage_round_trip (currentTime : gostring) :
  forallb isDigit currentTime = true ->
  length currentTime = 14 ->
  ParseHL7Message (GenerateMessage (GenerateSampleMessage currentTime)) =
  Done (Ok (GenerateSampleMessage currentTime)).
Proof. apply GenerateSampleMessage_round_trip_plain. Qed.

Lemma GenerateSampleMessage_round_trip_witness :
  forallb isDigit (str "20261103120000") = true /\
  length (str "20261103120000") = 14 /\
  ParseHL7Message (GenerateMessage (GenerateSampleMessage (str "20261103120000"))) =
  Done (Ok (GenerateSampleMessage (str "20261103120000"))).
Proof.
  assert (D : forallb isDigit (str "20261103120000") = true) by reflexivity.
  assert (L : length (str "20261103120000") = 14) by reflexivity.
  split; [exact D|]. split; [exact L|].
  exact (GenerateSampleMessage_round_trip _ D L).
Defined.

(** ** The HTTP handlers *)

Lemma gostring_eqb_spec (a b : gostring) : gostring_eqb a b = true <-> a = b.
Proof.
  revert b. induction a as [|x a IH]; intros [|y b]; simpl; split;
    try discriminate; try reflexivity; intros H.
  - apply andb_prop in H. destruct H as [E H]. apply Ascii.eqb_eq in E.
    apply IH in H. congruence.
  - inversion H; subst. rewrite Ascii.eqb_refl. apply IH. reflexivity.
Qed.

(** [handleParseHL7] answers every request exactly once, as JSON, with
    status 200, 400 or 405; it says [Success] exactly when the status is 200,
    which is exactly when it sends a message as [Data]; and the status is 405
    exactly when the method is not POST. *)
Theorem handleParseHL7_reply (r : http.Request) :
  exists w status response,
    handleParseHL7 http.NewResponseWriter r = Done w /\
    reply w = Some (status, "application/json"%string, jsonResponse response) /\
    (status = 200 \/ status = 400 \/ status = 405) /\
    (Success response = true <-> status = 200) /\
    (Data response <> None <-> status = 200) /\
    (status = 405 <-> http.Method r <> http.MethodPost).
Proof.
  unfold handleParseHL7, ReadAll.
  destruct (gostring_eqb (http.Method r) http.MethodPost) eqn:M; cbn [negb].
  - apply gostring_eqb_spec in M.
    destruct (http.Body r) as [body [e|]].
    + do 3 eexists. split; [reflexivity|]. split; [reflexivity|]. cbn.
      repeat split; try tauto; try discriminate; try congruence.
    + rewrite ParseHL7Message_chunks.
      destruct (parseChunks (chunks body) NewHL7Message) as [message|e].
      * do 3 eexists. split; [reflexivity|]. split; [reflexivity|]. cbn.
        repeat split; try tauto; try discriminate; try congruence.
      * do 3 eexists. split; [reflexivity|]. split; [reflexivity|]. cbn.
        repeat split; try tauto; try discriminate; try congruence.
  - assert (N : http.Method r <> http.MethodPost).
    { intros E. apply gostring_eqb_spec in E. congruence. }
    do 3 eexists. split; [reflexivity|]. split; [reflexivity|]. cbn.
    repeat split; try tauto; try discriminate; try congruence.
Qed.

(** A POST whose body is read without error and is shorter than 65536 bytes
    is always accepted: the answer is 200 with the parsed message as
    [Data]. *)
Theorem handleParseHL7_short_body (r : http.Request) (body : gostring) :
  http.Method r = http.MethodPost ->
  http.Body r = (body, None) ->
  length body < bufio.MaxScanTokenSize ->
  exists w message,
    ParseHL7Message body = Done (Ok message) /\
    handleParseHL7 http.NewResponseWriter r = Done w /\
    reply w =
    Some (200, "application/json"%string,
          jsonResponse {| Success := true;
                          Message := "HL7 message parsed successfully";
                          Data := Some message |}).
Proof.
  intros M B L. unfold handleParseHL7, ReadAll. rewrite M, B.
  rewrite ParseHL7Message_chunks, parseChunks_short.
  - do 2 eexists. split; [reflexivity|]. split; reflexivity.
  - eapply Forall_impl; [|apply chunks_length]. intros c Hc. simpl in Hc. lia.
Qed.

Lemma handleParseHL7_short_body_witness :
  http.Method {| http.Method := str "POST";
                 http.Body := (str "MSH|a" ++ [CR], None) |} = http.MethodPost /\
  length (str "MSH|a" ++ [CR]) < bufio.MaxScanTokenSize /\
  exists w message,
    ParseHL7Message (str "MSH|a" ++ [CR]) = Done (Ok message) /\
    handleParseHL7 http.NewResponseWriter
      {| http.Method := str "POST";
         http.Body := (str "MSH|a" ++ [CR], None) |} = Done w /\
    reply w =
    Some (200, "application/json"%string,
          jsonResponse {| Success := true;
                          Message := "HL7 message parsed successfully";
                          Data := Some message |}).
Proof.
  assert (L : length (str "MSH|a" ++ [CR]) < bufio.MaxScanTokenSize)
    by (apply Nat.ltb_lt; vm_compute; reflexivity).
  split; [reflexivity|]. split; [exact L|].
  exact (handleParseHL7_short_body
           {| http.Method := str "POST";
              http.Body := (str "MSH|a" ++ [CR], None) |}
           (str "MSH|a" ++ [CR]) eq_refl eq_refl L).
Defined.

(** A POST whose body has no carriage return in its first 65536 bytes is
    refused: the answer is 400, the message names the token limit of the
    scanner, and no [Data] is sent. *)
Theorem handleParseHL7_long_line (r : http.Request) (body : gostring) :
  http.Method r = http.MethodPost ->
  http.Body r = (body, None) ->
  bufio.MaxScanTokenSize <= length body ->
  ~ In CR (firstn bufio.MaxScanTokenSize body) ->
  exists w,
    handleParseHL7 http.NewResponseWriter r = Done w /\
    reply w =
    Some (400, "application/json"%string,
          jsonResponse
            {| Success := false;
               Message := "Error parsing HL7 message: bufio.Scanner: token too long";
               Data := None |}).
Proof.
  intros M B L NI. unfold handleParseHL7, ReadAll. rewrite M, B.
  rewrite ParseHL7Message_chunks, parseChunks_long.
  - eexists. split; reflexivity.
  - pose proof MaxScanTokenSize_pos as P.
    rewrite chunks_break by (intros E; rewrite E in L; simpl in L; lia).
    constructor.
    rewrite <- (firstn_skipn bufio.MaxScanTokenSize body).
    rewrite (break_app_None CR _ _ _ (break_notin CR _ NI)). cbn [fst].
    rewrite length_app, length_firstn. lia.
Qed.

(** A body of 65536 letters. *)
Lemma handleParseHL7_long_line_witness :
  bufio.MaxScanTokenSize <= length (repeat "A"%char bufio.MaxScanTokenSize) /\
  ~ In CR (firstn bufio.MaxScanTokenSize (repeat "A"%char bufio.MaxScanTokenSize)) /\
  exists w,
    handleParseHL7 http.NewResponseWriter
      {| http.Method := str "POST";
         http.Body := (repeat "A"%char bufio.MaxScanTokenSize, None) |} = Done w /\
    reply w =
    Some (400, "application/json"%string,
          jsonResponse
            {| Success := false;
               Message := "Error parsing HL7 message: bufio.Scanner: token too long";
               Data := None |}).
Proof.
  assert (L : bufio.MaxScanTokenSize <=
              length (repeat "A"%char bufio.MaxScanTokenSize))
    by (rewrite repeat_length; apply le_n).
  assert (N : ~ In CR (firstn bufio.MaxScanTokenSize
                         (repeat "A"%char bufio.MaxScanTokenSize))).
  { rewrite firstn_all2 by (rewrite repeat_length; apply le_n).
    intros I. apply repeat_spec in I. discriminate I. }
  split; [exact L|]. split; [exact N|].
  exact (handleParseHL7_long_line
           {| http.Method := str "POST";
              http.Body := (repeat "A"%char bufio.MaxScanTokenSize, None) |}
           (repeat "A"%char bufio.MaxScanTokenSize) eq_refl eq_refl L N).
Defined.

(** The message that [handleGenerateHL7] serves on a GET is taken back by
    [handleParseHL7]: its text, sent in a POST, is answered with status 200
    and the same message, at every time stamp of fourteen digits. *)
Theorem handleGenerateHL7_then_handleParseHL7 (currentTime : gostring)
    (get post : http.Request) :
  forallb isDigit currentTime = true ->
  length currentTime = 14 ->
  http.Method get = http.MethodGet ->
  http.Method post = http.MethodPost ->
  http.Body post =
    (GenerateMessage (GenerateSampleMessage currentTime), None) ->
  exists w,
    reply (handleGenerateHL7 currentTime http.NewResponseWriter get) =
      Some (200, "application/json"%string,
            jsonResponse {| Success := true;
                            Message := "HL7 message generated successfully";
                            Data := Some (GenerateSampleMessage currentTime) |}) /\
    handleParseHL7 http.NewResponseWriter post = Done w /\
    reply w =
      Some (200, "application/json"%string,
            jsonResponse {| Success := true;
                            Message := "HL7 message parsed successfully";
                            Data := Some (GenerateSampleMessage currentTime) |}).
Proof.
  intros D L G P B. unfold handleGenerateHL7, handleParseHL7, ReadAll.
  rewrite G, P, B, (GenerateSampleMessage_round_trip_plain currentTime D L).
  eexists. split; [reflexivity|]. split; reflexivity.
Qed.

Lemma handleGenerateHL7_then_handleParseHL7_witness :
  exists w,
    reply (handleGenerateHL7 (str "20261103120000") http.NewResponseWriter
             {| http.Method := str "GET"; http.Body := ([], None) |}) =
      Some (200, "application/json"%string,
            jsonResponse {| Success := true;
                            Message := "HL7 message generated successfully";
                            Data := Some (GenerateSampleMessage (str "20261103120000")) |}) /\
    handleParseHL7 http.NewResponseWriter
      {| http.Method := str "POST";
         http.Body := (GenerateMessage (GenerateSampleMessage (str "20261103120000")),
                       None) |} = Done w /\
    reply w =
      Some (200, "application/json"%string,
            jsonResponse {| Success := true;
                            Message := "HL7 message parsed successfully";
                            Data := Some (GenerateSampleMessage (str "20261103120000")) |}).
Proof.
  exact (handleGenerateHL7_then_handleParseHL7 (str "20261103120000")
           {| http.Method := str "GET"; http.Body := ([], None) |}
           {| http.Method := str "POST";
              http.Body := (GenerateMessage (GenerateSampleMessage (str "20261103120000")),
                            None) |}
           eq_refl eq_refl eq_refl eq_refl eq_refl).
Defined.
